(** * Caveat evaluation (pkg/caveats/eval.go)

    A shallow embedding of the caveat evaluation entry points of
    [pkg/caveats/eval.go] and of the result accessors, together with the
    parts of Go's [strings] and [regexp] packages that the file uses.

    The CEL runtime ([env.Program], [cel.PartialVars], [prg.Eval],
    [interpreter.PruneAst]) is a collaborator of the file and not part of
    it: the embedding of the source takes it as a record of functions,
    [CelRuntime], so that what is proved about the source alone holds for
    every runtime.  [Module Engine] gives one runtime, modelled from the
    specification's description of the evaluation engine and of the
    residual pruner; what depends on how expressions evaluate is proved on
    it. *)

From Stdlib Require Import ZArith NArith Strings.String Strings.Ascii.
From stdpp Require Import base option list strings gmap pretty.

Open Scope string_scope.
Open Scope list_scope.

(* ===================================================================== *)
(** ** Go values: errors, results and panics *)
(* ===================================================================== *)

(** A Go [(T, error)] return: the source only ever returns [(v, nil)] or
    [(nil, err)].  An [error] is kept as its [Error()] text. *)
Inductive Result (A : Type) : Type :=
| Ok (a : A)
| Error (msg : string).
Arguments Ok {A} a.
Arguments Error {A} msg.

(** A Go call that either returns or panics at run time. *)
Inductive Outcome (A : Type) : Type :=
| Returns (a : A)
| Panics.
Arguments Returns {A} a.
Arguments Panics {A}.

(* ===================================================================== *)
(** ** Package [strings] *)
(* ===================================================================== *)

Module GoStrings.

(** [strings.HasPrefix(s, p)]; on success the rest of [s] after [p]. *)
Fixpoint CutPrefix (p s : string) : option string :=
  match p, s with
  | EmptyString, _ => Some s
  | String a p', String b s' => if Ascii.eqb a b then CutPrefix p' s' else None
  | String _ _, EmptyString => None
  end.

Definition HasPrefix (s p : string) : bool :=
  match CutPrefix p s with Some _ => true | None => false end.

(** [strings.Contains(s, substr)]. *)
Fixpoint Contains (s substr : string) : bool :=
  HasPrefix s substr ||
  match s with
  | EmptyString => false
  | String _ s' => Contains s' substr
  end.

(** The scan of [strings.Split(s, sep)] for a non-empty [sep]: [skip] counts
    the bytes of a separator still to be passed over, [cur] is the piece
    being collected. *)
Fixpoint splitFrom (sep : string) (skip : nat) (cur s : string) : list string :=
  match s with
  | EmptyString => [cur]
  | String c s' =>
      match skip with
      | S k => splitFrom sep k cur s'
      | O =>
          if HasPrefix s sep
          then cur :: splitFrom sep (String.length sep - 1) "" s'
          else splitFrom sep 0 (cur +:+ String c "") s'
      end
  end.

(** [strings.Split(s, sep)], for the non-empty separators the source uses:
    the pieces between the occurrences of [sep], one more than there are
    occurrences, so never an empty slice. *)
Definition Split (s sep : string) : list string := splitFrom sep 0 "" s.

End GoStrings.

(* ===================================================================== *)
(** ** Texts: predicates on the bytes of a string *)
(* ===================================================================== *)

Module Text.

Fixpoint allChars (p : ascii → bool) (s : string) : bool :=
  match s with
  | EmptyString => true
  | String c s' => p c && allChars p s'
  end.

Definition notChar (a c : ascii) : bool := negb (Ascii.eqb c a).

Definition isDigit (c : ascii) : bool :=
  let n := nat_of_ascii c in ((48 <=? n) && (n <=? 57))%nat.

(** The bytes of a parameter name: letters, digits, [_], and the [.] of a
    qualified name. *)
Definition isIdentChar (c : ascii) : bool :=
  let n := nat_of_ascii c in
  ((48 <=? n) && (n <=? 57) || (65 <=? n) && (n <=? 90) ||
   (97 <=? n) && (n <=? 122) || (n =? 95) || (n =? 46))%nat.

Definition validName (x : string) : bool :=
  negb (String.eqb x "") && allChars isIdentChar x.

End Text.

(* ===================================================================== *)
(** ** Package [regexp] *)
(* ===================================================================== *)

Module Regexp.

(** The patterns of the file are anchored sequences ([^ ... $]) of literal
    text and capturing groups [(.+)]. *)
Inductive Item : Type :=
| Lit (s : string)
| AnyPlus.

Definition newline : ascii := Ascii.ascii_of_nat 10.

(** The capturing group [(.+)], followed by the rest of the pattern [k].
    It is greedy: it first tries to take one more byte, and gives back only
    when the rest of the pattern fails on what is left.  [.] matches every
    byte but a newline (no [s] flag).  [taken] is what the group holds so
    far. *)
Fixpoint group (k : string → option (list string)) (taken s : string)
    : option (list string) :=
  match s with
  | EmptyString => None
  | String c s' =>
      if Ascii.eqb c newline then None
      else
        let taken' := taken +:+ String c "" in
        match group k taken' s' with
        | Some caps => Some caps
        | None =>
            match k s' with
            | Some caps => Some (taken' :: caps)
            | None => None
            end
        end
  end.

(** Backtracking match of the items against the whole of the text, giving
    the captures in order.  The end of the items is [$] without the [m]
    flag: the end of the text. *)
Fixpoint matchItems (items : list Item) : string → option (list string) :=
  match items with
  | [] => fun s => match s with EmptyString => Some [] | String _ _ => None end
  | Lit l :: rest => fun s =>
      match GoStrings.CutPrefix l s with
      | Some s' => matchItems rest s'
      | None => None
      end
  | AnyPlus :: rest => group (matchItems rest) ""
  end.

(** [re.FindStringSubmatch(s)]: [None] is Go's [nil] (no match); otherwise
    the whole match followed by the captures. *)
Definition FindStringSubmatch (re : list Item) (s : string) : option (list string) :=
  match matchItems re s with
  | Some caps => Some (s :: caps)
  | None => None
  end.

End Regexp.


(* ===================================================================== *)
(** ** Lists of names and their texts *)
(* ===================================================================== *)

Module Names.

(** The number of occurrences of the byte [a] in [s]. *)
Fixpoint count (a : ascii) (s : string) : nat :=
  match s with
  | EmptyString => 0
  | String c s' => (if Ascii.eqb c a then 1 else 0) + count a s'
  end.

(** [strings.Join(l, sep)]. *)
Definition Join (l : list string) (sep : string) : string := String.concat sep l.

(** No byte of [s] is a newline. *)
Definition oneLine (s : string) : bool :=
  Text.allChars (Text.notChar Regexp.newline) s.

End Names.


(* ===================================================================== *)
(** ** The CEL library: the data the source exchanges with it *)
(* ===================================================================== *)

Module Cel.

(** Modelled from the spec: the runtime values of a context
    ([EvaluationContext]: "boolean, number, string, list, map") and of
    literals; a map is keyed by strings, as the context itself is.  The
    value types of the expression language are not in the source. *)
#[warnings="-register-all"] Inductive CelValue : Type :=
| VBool (b : bool)
| VInt (z : Z)
| VString (s : string)
| VList (l : list CelValue)
| VMap (m : gmap string CelValue).

(** [ref.Val], the value [prg.Eval] hands back: a concrete value, or the
    error value of a "successful evaluation to an error result" (the comment
    of the source on [prg.Eval]). *)
Inductive Val : Type :=
| Concrete (v : CelValue)
| ErrVal (msg : string).

(** The Go value behind a [ref.Val], what [val.Value()] returns as [any]. *)
Inductive GoAny : Type :=
| GoBool (b : bool)
| GoInt64 (z : Z)
| GoString (s : string)
| GoSlice (l : list CelValue)
| GoMap (m : gmap string CelValue)
| GoError (msg : string).

Definition Val_Value (v : Val) : GoAny :=
  match v with
  | Concrete (VBool b) => GoBool b
  | Concrete (VInt z) => GoInt64 z
  | Concrete (VString s) => GoString s
  | Concrete (VList l) => GoSlice l
  | Concrete (VMap m) => GoMap m
  | ErrVal msg => GoError msg
  end.

(** Modelled from the spec: strict binary functions of the expression
    language: "arithmetic, comparison, membership, string/collection
    operations".  [In] is membership in a list or among the keys of a map,
    [Index] the element of a list at a position or the value of a map at a
    key, [StringContains] and [StartsWith] are tests on strings. *)
Inductive Function : Type :=
| Equals | NotEquals | Less | LessEquals | Greater | GreaterEquals
| Add | Subtract
| In | Index | StringContains | StartsWith.

(** Modelled from the spec: the compiled expression's AST ([ExpressionNode]),
    which the compiler produces outside the source.  Every node carries the
    identifier the evaluation trace and the blocking signal refer to. *)
Inductive Expr : Type :=
| Const (id : N) (v : CelValue)
| Ident (id : N) (name : string)
| Not (id : N) (a : Expr)
| And (id : N) (a b : Expr)
| Or (id : N) (a b : Expr)
| Call (id : N) (f : Function) (a b : Expr).

(** [cel.Ast]: [ast.Expr()] and [cel.ParsedExprToAst] convert between the
    AST and its expression without changing it. *)
Definition Ast : Type := Expr.
Definition Ast_Expr (a : Ast) : Expr := a.
Definition ParsedExprToAst (e : Expr) : Ast := e.

Inductive CelType : Type := BoolType | IntType | StringType | ListType | MapType.

(** Modelled from the spec: [cel.Env] as the declared parameters
    ([ParameterDeclarations]: parameter name to declared type). *)
Abbreviation Env := (gmap string CelType).

Inductive EvalOption : Type := OptTrackState | OptPartialEval.

Inductive ProgramOption : Type :=
| EvalOptions (o : EvalOption)
| CostLimit (k : N).

(** Modelled from the spec: the outcome of one node of the AST under
    three-valued evaluation: a concrete value, unknown (blocked on an
    unbound parameter: the node identifier of the access and the parameter's
    name), or failed. *)
Inductive Res : Type :=
| Known (v : CelValue)
| Unknown (id : N) (name : string)
| Failed (msg : string).

(** Modelled from the spec: [interpreter.EvalState] as the
    [EvaluationTrace], one entry per node visited, in the order the visits
    ended. *)
Definition EvalState : Type := list (N * Res).

(** [cel.EvalDetails]. *)
Record EvalDetails : Type := {
  State : EvalState;
  ActualCost : N;
}.

(** [cel.Program]: what [env.Program(ast, opts...)] plans. *)
Record Prg : Type := {
  prgEnv : Env;
  prgAst : Ast;
  prgOpts : list ProgramOption;
}.

(** The partial activation [cel.PartialVars] builds from the context:
    the bindings; what is absent is unbound. *)
Abbreviation Activation := (gmap string CelValue).

End Cel.

Import Cel.

(** The functions of the CEL library the source calls. *)
Record CelRuntime : Type := {
  env_Program : Env → Ast → list ProgramOption → Result Prg;
  cel_PartialVars : gmap string CelValue → Result Activation;
  prg_Eval : Prg → Activation → option Val * EvalDetails * option string;
  interpreter_PruneAst : Expr → EvalState → Expr;
}.

(* ===================================================================== *)
(** ** pkg/caveats/eval.go *)
(* ===================================================================== *)

(** [^no such attribute: id: (.+), names: \[(.+)\]$] *)
Definition noSuchAttributeErrMessage : list Regexp.Item :=
  [ Regexp.Lit "no such attribute: id: "; Regexp.AnyPlus;
    Regexp.Lit ", names: ["; Regexp.AnyPlus; Regexp.Lit "]" ].

Record EvaluationConfig : Type := {
  MaxCost : N;
}.

(** [CompiledCaveat], in the order of its fields in the struct literal of
    [PartialValue]. *)
Record CompiledCaveat : Type := {
  celEnv : Env;
  ast : Ast;
  name : string;
}.

(** [CaveatResult].  [val] is an interface value and may be nil; a nil
    [missingVarNames] slice is the empty list. *)
Record CaveatResult : Type := {
  val : option Val;
  details : EvalDetails;
  parentCaveat : CompiledCaveat;
  contextValues : gmap string CelValue;
  missingVarNames : list string;
  isPartial : bool;
}.

(** [cr.val.Value().(bool)]: a method call on a nil interface panics, and so
    does the type assertion on anything but a [bool]. *)
Definition assertBool (v : option Val) : Outcome bool :=
  match v with
  | None => Panics
  | Some v =>
      match Val_Value v with
      | GoBool b => Returns b
      | _ => Panics
      end
  end.

Definition Value (cr : CaveatResult) : Outcome bool :=
  if cr.(isPartial) then Returns false
  else assertBool cr.(val).

Definition IsPartial (cr : CaveatResult) : bool := cr.(isPartial).

Definition PartialValue (rt : CelRuntime) (cr : CaveatResult) : Result CompiledCaveat :=
  if negb cr.(isPartial) then Error "result is fully evaluated"
  else
    let expr :=
      rt.(interpreter_PruneAst) (Ast_Expr cr.(parentCaveat).(ast)) cr.(details).(State) in
    Ok {| celEnv := cr.(parentCaveat).(celEnv);
          ast := ParsedExprToAst expr;
          name := cr.(parentCaveat).(name) |}.

Definition ContextValues (cr : CaveatResult) : gmap string CelValue :=
  cr.(contextValues).

(** [ExpressionString] hands over to [CompiledCaveat.ExprString], which is
    not in the source file: the method is the argument [exprString]. *)
Definition ExpressionString (exprString : CompiledCaveat → Result string)
    (cr : CaveatResult) : Result string :=
  exprString cr.(parentCaveat).

Definition MissingVarNames (cr : CaveatResult) : Result (list string) :=
  if negb cr.(isPartial) then Error "result is fully evaluated"
  else Ok cr.(missingVarNames).

(** The options [EvaluateCaveatWithConfig] hands to [env.Program]. *)
Definition celopts (config : option EvaluationConfig) : list ProgramOption :=
  let celopts := [] in
  let celopts := celopts ++ [EvalOptions OptTrackState] in
  let celopts := celopts ++ [EvalOptions OptPartialEval] in
  match config with
  | Some config =>
      if (0 <? config.(MaxCost))%N
      then celopts ++ [CostLimit config.(MaxCost)]
      else celopts
  | None => celopts
  end.

(** [EvaluateCaveatWithConfig].  A nil [config] is [None].  [found[2]] is
    in range whenever the pattern matches, since the pattern has two groups;
    the default stands for the index panic that cannot occur. *)
Definition EvaluateCaveatWithConfig (rt : CelRuntime) (caveat : CompiledCaveat)
    (contextValues : gmap string CelValue) (config : option EvaluationConfig)
    : Result CaveatResult :=
  let env := caveat.(celEnv) in
  match rt.(env_Program) env caveat.(ast) (celopts config) with
  | Error err => Error err
  | Ok prg =>
      match rt.(cel_PartialVars) contextValues with
      | Error err => Error err
      | Ok pvars =>
          let '(val, details, err) := rt.(prg_Eval) prg pvars in
          match err with
          | Some err =>
              if bool_decide (val ≠ None) && GoStrings.Contains err "no such attribute"
              then
                match Regexp.FindStringSubmatch noSuchAttributeErrMessage err with
                | Some found =>
                    Ok {| val := val;
                          details := details;
                          parentCaveat := caveat;
                          contextValues := contextValues;
                          missingVarNames :=
                            GoStrings.Split (default "" (found !! 2%nat)) " ";
                          isPartial := true |}
                | None =>
                    Ok {| val := val;
                          details := details;
                          parentCaveat := caveat;
                          contextValues := contextValues;
                          missingVarNames := [];
                          isPartial := true |}
                end
              else Error err
          | None =>
              Ok {| val := val;
                    details := details;
                    parentCaveat := caveat;
                    contextValues := contextValues;
                    missingVarNames := [];
                    isPartial := false |}
          end
      end
  end.

Definition EvaluateCaveat (rt : CelRuntime) (caveat : CompiledCaveat)
    (contextValues : gmap string CelValue) : Result CaveatResult :=
  EvaluateCaveatWithConfig rt caveat contextValues None.

(** The names [EvaluateCaveatWithConfig] attaches to a Partial result, as a
    function of the evaluator's error text. *)
Definition namesFromError (err : string) : list string :=
  match Regexp.FindStringSubmatch noSuchAttributeErrMessage err with
  | Some found => GoStrings.Split (default "" (found !! 2%nat)) " "
  | None => []
  end.

(** The evaluation returned a Decided result of value [b]. *)
Definition DecidedAs (r : Result CaveatResult) (b : bool) : Prop :=
  ∃ cr, r = Ok cr ∧ IsPartial cr = false ∧ Value cr = Returns b.

(** What a caller reads off an evaluation through the accessors. *)
Definition observe (r : Result CaveatResult)
    : Result (bool * Outcome bool * Result (list string)) :=
  match r with
  | Ok cr => Ok (IsPartial cr, Value cr, MissingVarNames cr)
  | Error err => Error err
  end.

(** [env'] is [env] restricted to the parameters [names]. *)
Definition restrictedTo (env' env : Env) (names : list string) : Prop :=
  ∀ x, env' !! x = if bool_decide (x ∈ names) then env !! x else None.

(* ===================================================================== *)
(** ** The evaluation engine and the residual pruner *)
(* ===================================================================== *)

(** The source reaches the engine through [prg.Eval] and the pruner through
    [interpreter.PruneAst]; both belong to the CEL library and are not in
    the source.  This module models them from the specification
    (sections 4.1 to 4.3). *)

Module Engine.

Definition idOf (e : Expr) : N :=
  match e with
  | Const id _ | Ident id _ | Not id _ | And id _ _ | Or id _ _ | Call id _ _ _ => id
  end.

Definition noOverload : string := "no such overload".

Definition undeclaredReference : string := "undeclared reference".

Definition costLimitExceeded : string :=
  "operation cancelled: actual cost limit exceeded".

(** The text of a failed lookup of a key that a map does not hold, as the
    evaluator words it; the key is part of the text. *)
Definition noSuchKey (k : string) : string := "no such key: " +:+ k.

(** The text of a failed access to a list at a position it does not have. *)
Definition indexOutOfRange (i : Z) (size : nat) : string :=
  "index '" +:+ pretty i +:+ "' out of range in list size '" +:+ pretty size +:+ "'".

(** Modelled from the spec: the blocking signal of an access to an unbound
    parameter, carrying "the attribute identifier and the set of legal
    sibling names at that access point", in the shape
    [noSuchAttributeErrMessage] recognises: the names between the brackets,
    separated by spaces. *)
Definition noSuchAttribute (id : N) (names : list string) : string :=
  "no such attribute: id: " +:+ pretty id +:+ ", names: [" +:+ Names.Join names " "
  +:+ "]".

(** Modelled from the spec: the names legal at the access to the parameter
    [x].  The environment ([ParameterDeclarations]) maps a parameter's name
    to its type and has no other name for it, so the set holds [x] alone. *)
Definition legalNames (x : string) : list string := [x].

(** Equality of scalars; a list or a map equals nothing here. *)
Definition sameScalar (x y : CelValue) : bool :=
  match x, y with
  | VBool a, VBool b => Bool.eqb a b
  | VInt a, VInt b => (a =? b)%Z
  | VString a, VString b => String.eqb a b
  | _, _ => false
  end.

(** The element of a list at a position. *)
Definition elementAt (l : list CelValue) (i : Z) : option CelValue :=
  if (0 <=? i)%Z then l !! Z.to_nat i else None.

(** Modelled from the spec: the functions, computed "normally" on bound
    operands.  An error is a failure of the evaluation: a type mismatch, the
    lookup of a key a map does not hold, a position a list does not have. *)
Definition applyFunction (f : Function) (x y : CelValue) : Result CelValue :=
  match f, x, y with
  | Equals, VBool a, VBool b => Ok (VBool (Bool.eqb a b))
  | Equals, VInt a, VInt b => Ok (VBool (a =? b)%Z)
  | Equals, VString a, VString b => Ok (VBool (String.eqb a b))
  | NotEquals, VBool a, VBool b => Ok (VBool (negb (Bool.eqb a b)))
  | NotEquals, VInt a, VInt b => Ok (VBool (negb (a =? b)%Z))
  | NotEquals, VString a, VString b => Ok (VBool (negb (String.eqb a b)))
  | Less, VInt a, VInt b => Ok (VBool (a <? b)%Z)
  | LessEquals, VInt a, VInt b => Ok (VBool (a <=? b)%Z)
  | Greater, VInt a, VInt b => Ok (VBool (b <? a)%Z)
  | GreaterEquals, VInt a, VInt b => Ok (VBool (b <=? a)%Z)
  | Add, VInt a, VInt b => Ok (VInt (a + b))
  | Add, VString a, VString b => Ok (VString (a +:+ b))
  | Add, VList a, VList b => Ok (VList (a ++ b))
  | Subtract, VInt a, VInt b => Ok (VInt (a - b))
  | In, a, VList l => Ok (VBool (existsb (sameScalar a) l))
  | In, VString k, VMap m => Ok (VBool (bool_decide (is_Some (m !! k))))
  | Index, VList l, VInt i =>
      match elementAt l i with
      | Some v => Ok v
      | None => Error (indexOutOfRange i (length l))
      end
  | Index, VMap m, VString k =>
      match m !! k with
      | Some v => Ok v
      | None => Error (noSuchKey k)
      end
  | StringContains, VString a, VString b => Ok (VBool (GoStrings.Contains a b))
  | StartsWith, VString a, VString b => Ok (VBool (GoStrings.HasPrefix a b))
  | _, _, _ => Error noOverload
  end.

(** Modelled from the spec: a strict function is unknown when an operand
    it needs is; the first operand that is not a concrete value decides,
    left to right. *)
Definition callRes (f : Function) (ra rb : Res) : Res :=
  match ra, rb with
  | Known x, Known y =>
      match applyFunction f x y with
      | Ok v => Known v
      | Error msg => Failed msg
      end
  | Known _, r => r
  | r, _ => r
  end.

(** Modelled from the spec: [NOT(a)] negates [true]/[false], stays unknown
    on unknown. *)
Definition notRes (ra : Res) : Res :=
  match ra with
  | Known (VBool b) => Known (VBool (negb b))
  | Known _ => Failed noOverload
  | r => r
  end.

Definition isKnownBool (b : bool) (r : Res) : bool :=
  match r with
  | Known (VBool b') => Bool.eqb b b'
  | _ => false
  end.

(** Modelled from the spec: [AND(a, b)] is [false] if either operand is
    [false], [true] only if both are [true]; otherwise the outcome of the
    first operand that is not a boolean (unknown, or a failure). *)
Definition andRes (ra rb : Res) : Res :=
  if isKnownBool false ra || isKnownBool false rb then Known (VBool false)
  else
    match ra, rb with
    | Known (VBool _), Known (VBool _) => Known (VBool true)
    | Known (VBool _), Known _ => Failed noOverload
    | Known (VBool _), r => r
    | Known _, _ => Failed noOverload
    | r, _ => r
    end.

(** Modelled from the spec: [OR(a, b)] is [true] if either operand is
    [true], [false] only if both are [false]; otherwise as for [AND]. *)
Definition orRes (ra rb : Res) : Res :=
  if isKnownBool true ra || isKnownBool true rb then Known (VBool true)
  else
    match ra, rb with
    | Known (VBool _), Known (VBool _) => Known (VBool false)
    | Known (VBool _), Known _ => Failed noOverload
    | Known (VBool _), r => r
    | Known _, _ => Failed noOverload
    | r, _ => r
    end.

(** Modelled from the spec: the engine's state during one evaluation, the
    cost counter and the trace. *)
Record St : Type := {
  used : N;
  trace : EvalState;
}.

(** A step of the engine: [None] when the evaluation was stopped by the
    cost limit, with the state it stopped in. *)
Definition M (A : Type) : Type := St → option A * St.

#[global] Instance M_ret : MRet M := fun A a st => (Some a, st).

#[global] Instance M_bind : MBind M := fun A B f m st =>
  match m st with
  | (Some a, st') => f a st'
  | (None, st') => (None, st')
  end.

(** Modelled from the spec: charging [n] units; the engine stops as soon as
    the counter would exceed the limit. *)
Definition charge (limit : option N) (n : N) : M unit :=
  fun st =>
    let total := (st.(used) + n)%N in
    match limit with
    | Some k =>
        if (k <? total)%N then (None, st)
        else (Some tt, {| used := total; trace := st.(trace) |})
    | None => (Some tt, {| used := total; trace := st.(trace) |})
    end.

Definition record (id : N) (r : Res) : M unit :=
  fun st => (Some tt, {| used := st.(used); trace := st.(trace) ++ [(id, r)] |}).

Section Evaluation.

(** The cost model the compiler declares: what a visit of a node is
    charged. *)
Variable cost : Expr → N.
(** The declared parameters. *)
Variable env : Env.
Variable limit : option N.
Variable vars : Activation.

(** Modelled from the spec: reading a parameter gives its value when the
    context binds it (declared or not); it is unknown when the parameter is
    declared and unbound; a reference to a name that is neither bound nor
    declared is a failure, not an unknown. *)
Definition readParameter (id : N) (x : string) : Res :=
  match vars !! x with
  | Some v => Known v
  | None =>
      match env !! x with
      | Some _ => Unknown id x
      | None => Failed undeclaredReference
      end
  end.

(** Modelled from the spec: a visit of a node charges it, computes its
    outcome and enters it in the trace. *)
Definition visit (e : Expr) (m : M Res) : M Res :=
  charge limit (cost e) ;;
  r ← m ;
  record (idOf e) r ;;
  mret r.

(** Modelled from the spec: the evaluation engine, which the source reaches
    through [prg.Eval] only.  Three-valued, left to right; the right operand
    of a connective is not visited when the left one already decides. *)
Fixpoint eval (e : Expr) : M Res :=
  visit e
    match e with
    | Const _ v => mret (Known v)
    | Ident id x => mret (readParameter id x)
    | Not _ a => ra ← eval a ; mret (notRes ra)
    | And _ a b =>
        ra ← eval a ;
        if isKnownBool false ra then mret (Known (VBool false))
        else rb ← eval b ; mret (andRes ra rb)
    | Or _ a b =>
        ra ← eval a ;
        if isKnownBool true ra then mret (Known (VBool true))
        else rb ← eval b ; mret (orRes ra rb)
    | Call _ f a b =>
        ra ← eval a ; rb ← eval b ; mret (callRes f ra rb)
    end.

End Evaluation.

(** *** The unbounded evaluation as functions of the expression

    The outcome, the cost and the trace of an evaluation that no limit
    stops ([eval_unbounded] relates them to [eval]). *)

Section Unbounded.

Variable cost : Expr → N.
Variable env : Env.
Variable vars : Activation.

Fixpoint resOf (e : Expr) : Res :=
  match e with
  | Const _ v => Known v
  | Ident id x => readParameter env vars id x
  | Not _ a => notRes (resOf a)
  | And _ a b => andRes (resOf a) (resOf b)
  | Or _ a b => orRes (resOf a) (resOf b)
  | Call _ f a b => callRes f (resOf a) (resOf b)
  end.

Fixpoint costOf (e : Expr) : N :=
  (cost e +
   match e with
   | Const _ _ | Ident _ _ => 0
   | Not _ a => costOf a
   | And _ a b => costOf a + (if isKnownBool false (resOf a) then 0 else costOf b)
   | Or _ a b => costOf a + (if isKnownBool true (resOf a) then 0 else costOf b)
   | Call _ _ a b => costOf a + costOf b
   end)%N.

Fixpoint traceOf (e : Expr) : EvalState :=
  match e with
  | Const _ _ | Ident _ _ => []
  | Not _ a => traceOf a
  | And _ a b => traceOf a ++ (if isKnownBool false (resOf a) then [] else traceOf b)
  | Or _ a b => traceOf a ++ (if isKnownBool true (resOf a) then [] else traceOf b)
  | Call _ _ a b => traceOf a ++ traceOf b
  end ++ [(idOf e, resOf e)].

(** The state of the engine after an evaluation of [e] that started in
    [st] and ran to its end. *)
Definition after (st : St) (e : Expr) : St :=
  {| used := st.(used) + costOf e;
     trace := st.(trace) ++ traceOf e |}.

End Unbounded.

(** The node identifiers of an expression. *)
Fixpoint ids (e : Expr) : list N :=
  idOf e ::
  match e with
  | Const _ _ | Ident _ _ => []
  | Not _ a => ids a
  | And _ a b | Or _ a b | Call _ _ a b => ids a ++ ids b
  end.

(** The parameters an expression refers to. *)
Fixpoint idents (e : Expr) : list string :=
  match e with
  | Const _ _ => []
  | Ident _ x => [x]
  | Not _ a => idents a
  | And _ a b | Or _ a b | Call _ _ a b => idents a ++ idents b
  end.

(** The limit a program was planned with: that of the last
    [cel.CostLimit] option, none without one. *)
Definition limitOf (opts : list ProgramOption) : option N :=
  foldl (fun acc o => match o with CostLimit k => Some k | _ => acc end) None opts.

(** Modelled from the spec: [env.Program] plans the compiled expression
    with the options; the compiler has checked the expression before. *)
Definition Program (env : Env) (ast : Ast) (opts : list ProgramOption) : Result Prg :=
  Ok {| prgEnv := env; prgAst := ast; prgOpts := opts |}.

(** Modelled from the spec: the context binder; parameters absent from the
    context stay unbound. *)
Definition PartialVars (contextValues : gmap string CelValue) : Result Activation :=
  Ok contextValues.

(** Modelled from the spec: [prg.Eval], an evaluation from the initial
    state, with the three shapes of return the source's comment lists: a
    value and no error; an error value and its error (an unknown root gives
    the blocking signal of the access with its legal names, a failure its
    text); no value and an error when the limit stopped the evaluation. *)
Definition run (cost : Expr → N) (prg : Prg) (vars : Activation)
    : option Val * EvalDetails * option string :=
  let '(r, st) :=
    eval cost prg.(prgEnv) (limitOf prg.(prgOpts)) vars (Ast_Expr prg.(prgAst))
      {| used := 0; trace := [] |} in
  let details := {| State := st.(trace); ActualCost := st.(used) |} in
  match r with
  | None => (None, details, Some costLimitExceeded)
  | Some (Known v) => (Some (Concrete v), details, None)
  | Some (Unknown id x) =>
      (Some (ErrVal (noSuchAttribute id (legalNames x))), details,
       Some (noSuchAttribute id (legalNames x)))
  | Some (Failed msg) => (Some (ErrVal msg), details, Some msg)
  end.

(** The entry of the trace for a node identifier, the first when there are
    several. *)
Fixpoint lookupState (state : EvalState) (id : N) : option Res :=
  match state with
  | [] => None
  | (i, r) :: state' => if (i =? id)%N then Some r else lookupState state' id
  end.

(** Modelled from the spec: the residual pruner.  A subtree the trace
    records as decided is replaced by its value; the others stay symbolic. *)
Fixpoint PruneAst (e : Expr) (state : EvalState) : Expr :=
  match lookupState state (idOf e) with
  | Some (Known v) => Const (idOf e) v
  | _ =>
      match e with
      | Not id a => Not id (PruneAst a state)
      | And id a b => And id (PruneAst a state) (PruneAst b state)
      | Or id a b => Or id (PruneAst a state) (PruneAst b state)
      | Call id f a b => Call id f (PruneAst a state) (PruneAst b state)
      | Const _ _ | Ident _ _ => e
      end
  end.

(** The runtime made of the engine and the pruner. *)
Definition runtime (cost : Expr → N) : CelRuntime :=
  {| env_Program := Program;
     cel_PartialVars := PartialVars;
     prg_Eval := run cost;
     interpreter_PruneAst := PruneAst |}.

(** Modelled from the spec: one unit per parameter access, function call
    and comparison; a literal is free. *)
Definition unitCost (e : Expr) : N :=
  match e with
  | Const _ _ => 0
  | _ => 1
  end.

Definition initial : St := {| used := 0; trace := [] |}.

(** The details of an evaluation that ran to its end. *)
Definition completed (cost : Expr → N) (env : Env) (vars : Activation) (e : Expr)
    : EvalDetails :=
  {| State := traceOf env vars e; ActualCost := costOf cost env vars e |}.

(** The limit an evaluation under [config] runs with. *)
Definition limitFor (config : option EvaluationConfig) : option N :=
  limitOf (celopts config).

(** The cost units the evaluation of [e] consumes when no limit stops it. *)
Definition requiredCost (cost : Expr → N) (env : Env) (e : Expr) (vars : Activation)
    : N :=
  (eval cost env None vars e initial).2.(used).

(** Modelled from the spec: a value is compatible with a declared type. *)
Definition hasType (v : CelValue) (t : CelType) : bool :=
  match v, t with
  | VBool _, BoolType | VInt _, IntType | VString _, StringType
  | VList _, ListType | VMap _, MapType => true
  | _, _ => false
  end.

(** The context binds every declared parameter, with a value of its
    declared type. *)
Definition fullyBound (env : Env) (ctx : gmap string CelValue) : Prop :=
  ∀ x t, env !! x = Some t → ∃ v, ctx !! x = Some v ∧ hasType v t = true.

(** Every parameter name in the expression is an identifier. *)
Definition validNames (e : Expr) : Prop :=
  ∀ x, x ∈ idents e → Text.validName x = true.

(** [l] without the names already [seen] and without repetitions, in the
    order of first occurrence. *)
Fixpoint distinct (seen l : list string) : list string :=
  match l with
  | [] => []
  | x :: l' =>
      if bool_decide (x ∈ seen) then distinct seen l'
      else x :: distinct (x :: seen) l'
  end.

(** Modelled from the spec: the missing-variable extraction "using the
    trace": the distinct parameter names read while unknown, in
    first-encountered order. *)
Definition unknownReads (state : EvalState) : list string :=
  distinct []
    (omap (fun p : N * Res =>
             match p.2 with
             | Unknown _ x => Some x
             | _ => None
             end) state).

End Engine.

(* ===================================================================== *)
(** ** Concrete caveats and contexts *)
(* ===================================================================== *)

Module Scenario.

Definition rt : CelRuntime := Engine.runtime Engine.unitCost.

(** [age >= 18 && country == "US"] *)
Definition adultInUS : CompiledCaveat :=
  {| celEnv := {[ "age" := IntType; "country" := StringType ]};
     ast := And 5 (Call 2 GreaterEquals (Ident 1 "age") (Const 3 (VInt 18)))
                  (Call 7 Equals (Ident 6 "country") (Const 8 (VString "US")));
     name := "adult_in_us" |}.

(** [age >= 18] *)
Definition adult : CompiledCaveat :=
  {| celEnv := {[ "age" := IntType; "country" := StringType ]};
     ast := Call 2 GreaterEquals (Ident 1 "age") (Const 3 (VInt 18));
     name := "adult" |}.

(** [a && b] *)
Definition both : CompiledCaveat :=
  {| celEnv := {[ "a" := BoolType; "b" := BoolType ]};
     ast := And 3 (Ident 1 "a") (Ident 2 "b");
     name := "both" |}.

(** [a || b] *)
Definition either : CompiledCaveat :=
  {| celEnv := {[ "a" := BoolType; "b" := BoolType ]};
     ast := Or 3 (Ident 1 "a") (Ident 2 "b");
     name := "either" |}.

(** [(x + 1) + 2 >= 10] *)
Definition nested : CompiledCaveat :=
  {| celEnv := {[ "x" := IntType ]};
     ast := Call 7 GreaterEquals
              (Call 5 Add (Call 3 Add (Ident 1 "x") (Const 2 (VInt 1)))
                          (Const 4 (VInt 2)))
              (Const 6 (VInt 10));
     name := "nested" |}.

(** [limits[tier] >= 5] *)
Definition quota : CompiledCaveat :=
  {| celEnv := {[ "limits" := MapType; "tier" := StringType ]};
     ast := Call 5 GreaterEquals
              (Call 3 Index (Ident 1 "limits") (Ident 2 "tier"))
              (Const 4 (VInt 5));
     name := "quota" |}.

Definition age20 : gmap string CelValue := {[ "age" := VInt 20 ]}.
Definition age15 : gmap string CelValue := {[ "age" := VInt 15 ]}.
Definition inUS : gmap string CelValue := {[ "country" := VString "US" ]}.

(** Contexts for [quota]: a tier the limits hold, and a tier they do not
    hold, spelled [no such attribute]. *)
Definition goldTier : gmap string CelValue :=
  {[ "limits" := VMap {[ "gold" := VInt 10 ]}; "tier" := VString "gold" ]}.
Definition oddTier : gmap string CelValue :=
  {[ "limits" := VMap {[ "gold" := VInt 10 ]};
     "tier" := VString "no such attribute" ]}.

(** A Decided result and a Partial result, field by field. *)
Definition decidedTrue : CaveatResult :=
  {| val := Some (Concrete (VBool true));
     details := {| State := [(1%N, Known (VBool true))]; ActualCost := 0 |};
     parentCaveat :=
       {| celEnv := ∅; ast := Const 1 (VBool true); name := "always" |};
     contextValues := ∅;
     missingVarNames := [];
     isPartial := false |}.

Definition decidedNumber : CaveatResult :=
  {| val := Some (Concrete (VInt 7));
     details := {| State := [(1%N, Known (VInt 7))]; ActualCost := 0 |};
     parentCaveat :=
       {| celEnv := ∅; ast := Const 1 (VInt 7); name := "seven" |};
     contextValues := ∅;
     missingVarNames := [];
     isPartial := false |}.

Definition blockedOnCountry : CaveatResult :=
  {| val := Some (ErrVal "no such attribute: id: 6, names: [country]");
     details :=
       {| State := [(1%N, Known (VInt 20)); (3%N, Known (VInt 18));
                    (2%N, Known (VBool true)); (6%N, Unknown 6 "country");
                    (8%N, Known (VString "US")); (7%N, Unknown 6 "country");
                    (5%N, Unknown 6 "country")];
          ActualCost := 5 |};
     parentCaveat := adultInUS;
     contextValues := age20;
     missingVarNames := ["country"];
     isPartial := true |}.

(** A runtime whose evaluator answers every program with the given value
    and error. *)
Definition answering (v : option Val) (err : option string) : CelRuntime :=
  {| env_Program := Engine.Program;
     cel_PartialVars := Engine.PartialVars;
     prg_Eval := fun _ _ => (v, {| State := []; ActualCost := 0 |}, err);
     interpreter_PruneAst := Engine.PruneAst |}.

(** A runtime whose [env.Program] refuses every expression. *)
Definition refusing (msg : string) : CelRuntime :=
  {| env_Program := fun _ _ _ => Error msg;
     cel_PartialVars := Engine.PartialVars;
     prg_Eval := Engine.run Engine.unitCost;
     interpreter_PruneAst := Engine.PruneAst |}.

End Scenario.

(* ===================================================================== *)
(** ** Notions for the properties of the evaluator *)
(* ===================================================================== *)

(** The evaluator answers without an error only with a boolean value, as it
    does for an expression the compiler typed as boolean. *)
Definition answersBooleans (rt : CelRuntime) : Prop :=
  ∀ prg pvars v d,
    rt.(prg_Eval) prg pvars = (v, d, None) → ∃ b : bool, v = Some (Concrete (VBool b)).

(* ===================================================================== *)
(** * Properties *)
(* ===================================================================== *)

(** ** Texts, the pattern and the split *)

Module TextFacts.
Import Text.

Section StringFacts.

Lemma app_cons x (a b : string) : String x a +:+ b = String x (a +:+ b).
Proof. reflexivity. Qed.

Lemma app_nil_l (b : string) : "" +:+ b = b.
Proof. reflexivity. Qed.

Lemma app_assoc_s (a b c : string) : (a +:+ b) +:+ c = a +:+ (b +:+ c).
Proof. induction a as [|x a IH]; [done|]. rewrite !app_cons. by f_equal. Qed.

Lemma app_empty_r (a : string) : a +:+ "" = a.
Proof. induction a as [|x a IH]; [done|]. rewrite app_cons. by f_equal. Qed.

Lemma allChars_app p a b : allChars p (a +:+ b) = allChars p a && allChars p b.
Proof.
  induction a as [|x a IH]; [done|]. rewrite app_cons. simpl.
  by rewrite IH, andb_assoc.
Qed.

Lemma allChars_impl (p q : ascii → bool) s :
  (∀ c, p c = true → q c = true) → allChars p s = true → allChars q s = true.
Proof.
  intros Hpq. induction s as [|c s IH]; simpl; [done|].
  rewrite !andb_true_iff. intros [??]. auto.
Qed.

Lemma CutPrefix_app p s : GoStrings.CutPrefix p (p +:+ s) = Some s.
Proof.
  induction p as [|a p IH]; [by destruct s|].
  rewrite app_cons. simpl. by rewrite Ascii.eqb_refl.
Qed.

Lemma CutPrefix_Some p s r : GoStrings.CutPrefix p s = Some r → s = p +:+ r.
Proof.
  revert s. induction p as [|a p IH]; intros s; simpl.
  - destruct s; intros; by simplify_eq.
  - destruct s as [|b s]; [done|].
    destruct (Ascii.eqb_spec a b) as [->|]; [|done].
    intros H. rewrite app_cons. by rewrite (IH _ H).
Qed.

(** A text that does not start with the first byte of [p] does not start
    with [p]. *)
Lemma CutPrefix_head_ne a p s :
  allChars (notChar a) s = true →
  GoStrings.CutPrefix (String a p) s = None.
Proof.
  destruct s as [|b s]; simpl; [done|]. unfold notChar at 1.
  rewrite andb_true_iff, negb_true_iff. intros [Hb _].
  rewrite Ascii.eqb_sym in Hb. by rewrite Hb.
Qed.

End StringFacts.

Section GroupFacts.

Import Regexp.

(** What a successful group match says of the text. *)
Lemma group_sound k taken s caps :
  group k taken s = Some caps →
  ∃ g r caps', s = g +:+ r ∧ g ≠ "" ∧ allChars (notChar Regexp.newline) g = true ∧
               k r = Some caps' ∧ caps = (taken +:+ g) :: caps'.
Proof.
  revert taken. induction s as [|c s IH]; intros taken; simpl; [done|].
  destruct (Ascii.eqb c newline) eqn:Hc; [done|].
  destruct (group k (taken +:+ String c "") s) as [caps0|] eqn:Hg.
  - intros [= <-]. destruct (IH _ Hg) as (g & r & caps' & -> & Hne & Hnl & Hk & ->).
    exists (String c g), r, caps'. simpl. unfold notChar at 1. rewrite Hc. simpl.
    rewrite app_assoc_s. done.
  - destruct (k s) as [caps'|] eqn:Hk; [|done]. intros [= <-].
    exists (String c ""), s, caps'. simpl. unfold notChar. rewrite Hc. done.
Qed.

(** The group takes [g] when the rest of the pattern matches after [g] and
    after no longer piece. *)
Lemma group_longest k taken g r caps :
  g ≠ "" → allChars (notChar Regexp.newline) g = true →
  k r = Some caps →
  (∀ g' r', r = g' +:+ r' → g' ≠ "" → k r' = None) →
  group k taken (g +:+ r) = Some ((taken +:+ g) :: caps).
Proof.
  intros Hne Hnl Hk Hlong.
  assert (Hrest : ∀ r0 taken', (∀ g' r', r0 = g' +:+ r' → g' ≠ "" → k r' = None) →
            group k taken' r0 = None).
  { clear. induction r0 as [|c r0 IH]; intros taken' H; simpl; [done|].
    destruct (Ascii.eqb c newline); [done|].
    rewrite IH.
    - by rewrite (H (String c "") r0).
    - intros g' r' -> Hg'. apply (H (String c g') r'); done. }
  revert taken. induction g as [|c g IH]; intros taken; [done|].
  simpl in Hnl. apply andb_true_iff in Hnl as [Hc Hnl].
  unfold notChar in Hc. apply negb_true_iff in Hc.
  rewrite app_cons. simpl. rewrite Hc.
  destruct g as [|c' g].
  - rewrite app_nil_l, (Hrest r _ Hlong), Hk. done.
  - rewrite IH by done. by rewrite app_assoc_s.
Qed.

End GroupFacts.

Section SignalFacts.
Import Regexp.

Lemma isIdentChar_notChar a c :
  isIdentChar a = false → isIdentChar c = true → notChar a c = true.
Proof.
  intros Ha Hc. unfold notChar. apply negb_true_iff.
  destruct (Ascii.eqb_spec c a) as [->|]; [congruence|done].
Qed.

Lemma allChars_suffix p g r : allChars p (g +:+ r) = true → allChars p r = true.
Proof. rewrite allChars_app, andb_true_iff. tauto. Qed.

Lemma matchItems_Lit l rest s :
  matchItems (Lit l :: rest) s =
  match GoStrings.CutPrefix l s with
  | Some s' => matchItems rest s'
  | None => None
  end.
Proof. reflexivity. Qed.

Lemma matchItems_AnyPlus rest s :
  matchItems (AnyPlus :: rest) s = group (matchItems rest) "" s.
Proof. reflexivity. Qed.

Lemma matchItems_sound s caps :
  matchItems noSuchAttributeErrMessage s = Some caps →
  ∃ g1 g2, caps = [g1; g2] ∧ g1 ≠ "" ∧ g2 ≠ "" ∧
    s = "no such attribute: id: " +:+ g1 +:+ ", names: [" +:+ g2 +:+ "]".
Proof.
  unfold noSuchAttributeErrMessage. rewrite matchItems_Lit.
  destruct (GoStrings.CutPrefix _ s) as [s1|] eqn:H1; [|done].
  apply CutPrefix_Some in H1 as ->. rewrite matchItems_AnyPlus.
  intros (g1 & r1 & caps1 & -> & Hg1 & _ & Hk1 & ->)%group_sound.
  rewrite matchItems_Lit in Hk1.
  destruct (GoStrings.CutPrefix _ r1) as [s2|] eqn:H2; [|done].
  apply CutPrefix_Some in H2 as ->. rewrite matchItems_AnyPlus in Hk1.
  apply group_sound in Hk1 as (g2 & r2 & caps2 & -> & Hg2 & _ & Hk2 & ->).
  rewrite matchItems_Lit in Hk2.
  destruct (GoStrings.CutPrefix _ r2) as [s3|] eqn:H3; [|done].
  apply CutPrefix_Some in H3 as ->.
  destruct s3; [|done]. simpl in Hk2. simplify_eq.
  exists g1, g2. rewrite !app_nil_l. done.
Qed.

(** The pattern on a signal of the expected shape: the first group is the
    identifier, the second the bracketed text. *)
Lemma matchItems_signal d x :
  d ≠ "" → allChars (notChar Regexp.newline) d = true →
  x ≠ "" → allChars (notChar Regexp.newline) x = true → allChars (notChar ",") x = true →
  matchItems noSuchAttributeErrMessage
    ("no such attribute: id: " +:+ d +:+ ", names: [" +:+ x +:+ "]")
  = Some [d; x].
Proof.
  intros Hd Hdn Hx Hxn Hxc.
  unfold noSuchAttributeErrMessage.
  rewrite matchItems_Lit, CutPrefix_app, matchItems_AnyPlus.
  assert (H2 : matchItems [AnyPlus; Lit "]"] (x +:+ "]") = Some [x]).
  { rewrite matchItems_AnyPlus.
    rewrite (group_longest _ "" x "]" []); [done..| |].
    - reflexivity.
    - intros g' r' Heq Hg'. destruct g' as [|c g']; [done|].
      rewrite app_cons in Heq. injection Heq as _ Heq.
      destruct g'; [|done]. rewrite app_nil_l in Heq. by subst r'. }
  rewrite (group_longest _ "" d _ [x]); [done..| |].
  - by rewrite matchItems_Lit, CutPrefix_app.
  - intros g' r' Heq Hg'. destruct g' as [|c g']; [done|].
    change (String "," (" names: [" +:+ (x +:+ "]")) = String c (g' +:+ r')) in Heq.
    injection Heq as _ Heq.
    rewrite matchItems_Lit, (CutPrefix_head_ne "," _ r'); [done|].
    apply (allChars_suffix _ g'). rewrite <- Heq.
    rewrite !allChars_app. fold (notChar ","). rewrite Hxc. reflexivity.
Qed.

Lemma splitFrom_no_sep c cur x :
  allChars (notChar c) x = true →
  GoStrings.splitFrom (String c "") 0 cur x = [cur +:+ x].
Proof.
  revert cur. induction x as [|a x IH]; intros cur; simpl.
  - by rewrite app_empty_r.
  - rewrite andb_true_iff. intros [Ha Hx].
    unfold GoStrings.HasPrefix. simpl.
    unfold notChar in Ha. apply negb_true_iff in Ha.
    rewrite Ascii.eqb_sym in Ha. rewrite Ha.
    rewrite IH by done. by rewrite app_assoc_s.
Qed.

Lemma Split_no_space x :
  allChars (notChar " ") x = true → GoStrings.Split x " " = [x].
Proof. intros H. unfold GoStrings.Split. by rewrite splitFrom_no_sep. Qed.

(** A piece without the separator, then the separator. *)
Lemma splitFrom_piece c cur x s :
  allChars (notChar c) x = true →
  GoStrings.splitFrom (String c "") 0 cur (x +:+ String c s) =
  (cur +:+ x) :: GoStrings.splitFrom (String c "") 0 "" s.
Proof.
  revert cur. induction x as [|a x IH]; intros cur.
  - intros _. rewrite app_nil_l, app_empty_r. simpl.
    unfold GoStrings.HasPrefix. simpl. rewrite Ascii.eqb_refl. by destruct s.
  - simpl. rewrite andb_true_iff. intros [Ha Hx].
    unfold GoStrings.HasPrefix. simpl.
    unfold notChar in Ha. apply negb_true_iff in Ha.
    rewrite Ascii.eqb_sym in Ha. rewrite Ha.
    rewrite IH by done. by rewrite app_assoc_s.
Qed.

Lemma Join_cons x y l :
  Names.Join (x :: y :: l) " " = x +:+ String " " (Names.Join (y :: l) " ").
Proof. reflexivity. Qed.

(** [strings.Split] undoes the joining of names that hold no space. *)
Lemma Split_Join names :
  names ≠ [] → Forall (fun x => allChars (notChar " ") x = true) names →
  GoStrings.Split (Names.Join names " ") " " = names.
Proof.
  induction names as [|x [|y l] IH]; intros Hne Hall; [done| |].
  - apply Split_no_space. by apply Forall_inv in Hall.
  - rewrite Join_cons. unfold GoStrings.Split.
    rewrite splitFrom_piece by (by apply Forall_inv in Hall).
    rewrite app_nil_l. f_equal. apply IH; [done|]. by apply Forall_inv_tail in Hall.
Qed.

Lemma allChars_Join p names :
  p " "%char = true → Forall (fun x => allChars p x = true) names →
  allChars p (Names.Join names " ") = true.
Proof.
  intros Hp. induction names as [|x [|y l] IH]; intros Hall; [done| |].
  - by apply Forall_inv in Hall.
  - rewrite Join_cons, allChars_app. simpl. rewrite Hp.
    rewrite (Forall_inv Hall). simpl. apply IH. by apply Forall_inv_tail in Hall.
Qed.

Lemma Join_nonempty names :
  names ≠ [] → Forall (fun x => x ≠ "") names → Names.Join names " " ≠ "".
Proof.
  destruct names as [|x [|y l]]; intros Hne Hall; [done| |].
  - by apply Forall_inv in Hall.
  - rewrite Join_cons. apply Forall_inv in Hall. by destruct x.
Qed.

End SignalFacts.

Section PrettyFacts.

Lemma pretty_N_char_digit x : isDigit (pretty_N_char x) = true.
Proof. unfold pretty_N_char. by repeat case_match. Qed.

Lemma pretty_N_go_digits x s :
  allChars isDigit s = true → allChars isDigit (pretty_N_go x s) = true.
Proof.
  revert s. induction (N.lt_wf_0 x) as [x _ IH]; intros s Hs.
  destruct (decide (x = 0%N)) as [->|].
  - by rewrite pretty_N_go_0.
  - rewrite pretty_N_go_step by lia. apply IH.
    + apply N.div_lt; lia.
    + simpl. by rewrite pretty_N_char_digit.
Qed.

Lemma pretty_N_go_nonempty x s : s ≠ "" → pretty_N_go x s ≠ "".
Proof.
  revert s. induction (N.lt_wf_0 x) as [x _ IH]; intros s Hs.
  destruct (decide (x = 0%N)) as [->|].
  - by rewrite pretty_N_go_0.
  - rewrite pretty_N_go_step by lia. apply IH; [apply N.div_lt; lia|done].
Qed.

Lemma pretty_N_digits (x : N) : allChars isDigit (pretty x) = true.
Proof.
  unfold pretty, pretty_N. case_decide; [done|]. by apply pretty_N_go_digits.
Qed.

Lemma pretty_N_nonempty (x : N) : pretty x ≠ "".
Proof.
  unfold pretty, pretty_N. case_decide; [done|].
  rewrite pretty_N_go_step by lia. by apply pretty_N_go_nonempty.
Qed.

Lemma isDigit_notNewline c : isDigit c = true → notChar Regexp.newline c = true.
Proof.
  intros H. unfold notChar. apply negb_true_iff.
  destruct (Ascii.eqb_spec c Regexp.newline) as [->|]; done.
Qed.

Lemma isIdentChar_notNewline c : isIdentChar c = true → notChar Regexp.newline c = true.
Proof.
  intros H. unfold notChar. apply negb_true_iff.
  destruct (Ascii.eqb_spec c Regexp.newline) as [->|]; done.
Qed.

Lemma validName_inv x :
  validName x = true →
  x ≠ "" ∧ allChars (notChar Regexp.newline) x = true ∧
  allChars (notChar ",") x = true ∧ allChars (notChar " ") x = true.
Proof.
  unfold validName. rewrite andb_true_iff, negb_true_iff.
  intros [Hne Hall]. split; [by intros ->|].
  split_and!; (eapply allChars_impl; [|done]); intros c Hc.
  - by apply isIdentChar_notNewline.
  - by apply isIdentChar_notChar.
  - by apply isIdentChar_notChar.
Qed.

(** The blocking signal of the engine is recognised by the pattern, and its
    bracketed text splits into the names it was made of. *)
Lemma signal_names id names :
  names ≠ [] → Forall (fun x => validName x = true) names →
  ∃ found,
    Regexp.FindStringSubmatch noSuchAttributeErrMessage (Engine.noSuchAttribute id names)
      = Some found ∧
    GoStrings.Split (default "" (found !! 2%nat)) " " = names.
Proof.
  intros Hne Hvalid.
  assert (Hparts : Forall (fun x => x ≠ "" ∧ allChars (notChar Regexp.newline) x = true ∧
                             allChars (notChar ",") x = true ∧
                             allChars (notChar " ") x = true) names).
  { eapply Forall_impl; [exact Hvalid|]. intros x Hx. by apply validName_inv. }
  unfold Regexp.FindStringSubmatch, Engine.noSuchAttribute.
  rewrite matchItems_signal.
  - eexists; split; [done|]. simpl. apply Split_Join; [done|].
    eapply Forall_impl; [exact Hparts|]. by intros x (_ & _ & _ & H).
  - apply pretty_N_nonempty.
  - eapply allChars_impl; [apply isDigit_notNewline|apply pretty_N_digits].
  - apply Join_nonempty; [done|].
    eapply Forall_impl; [exact Hparts|]. by intros x (H & _).
  - apply allChars_Join; [done|].
    eapply Forall_impl; [exact Hparts|]. by intros x (_ & H & _).
  - apply allChars_Join; [done|].
    eapply Forall_impl; [exact Hparts|]. by intros x (_ & _ & H & _).
Qed.

Lemma Contains_prefix p s : GoStrings.Contains (p +:+ s) p = true.
Proof.
  destruct (p +:+ s) eqn:E; simpl; unfold GoStrings.HasPrefix; rewrite <- E, CutPrefix_app; done.
Qed.

End PrettyFacts.

(** ** The texts of the failures of the engine *)

Section FailureTexts.

(** An occurrence of a text does not start where its first byte is not. *)
Lemma Contains_skip c sub d r :
  allChars (notChar c) d = true →
  GoStrings.Contains (d +:+ r) (String c sub) = GoStrings.Contains r (String c sub).
Proof.
  induction d as [|a d IH]; [done|].
  simpl. rewrite andb_true_iff. intros [Ha Hd].
  unfold notChar in Ha. apply negb_true_iff in Ha.
  unfold GoStrings.HasPrefix. simpl. rewrite Ascii.eqb_sym, Ha. simpl.
  by apply IH.
Qed.

Lemma isDigit_not_n c : isDigit c = true → notChar "n" c = true.
Proof.
  intros H. unfold notChar. apply negb_true_iff.
  destruct (Ascii.eqb_spec c "n") as [->|]; done.
Qed.

Lemma pretty_N_no_n (x : N) : allChars (notChar "n") (pretty x) = true.
Proof. eapply allChars_impl; [apply isDigit_not_n|apply pretty_N_digits]. Qed.

Lemma pretty_Z_no_n (i : Z) : allChars (notChar "n") (pretty i) = true.
Proof.
  destruct i as [|x|x]; [done| |].
  - apply (pretty_N_no_n (Npos x)).
  - change (pretty (Zneg x)) with ("-" +:+ pretty (Npos x)).
    rewrite allChars_app. simpl. apply pretty_N_no_n.
Qed.

Lemma pretty_nat_no_n (n : nat) : allChars (notChar "n") (pretty n) = true.
Proof. apply (pretty_N_no_n (N.of_nat n)). Qed.

(** The text of a missing key holds [no such attribute] exactly when the
    key does. *)
Lemma Contains_noSuchKey k :
  GoStrings.Contains (Engine.noSuchKey k) "no such attribute"
  = GoStrings.Contains k "no such attribute".
Proof. reflexivity. Qed.

Lemma Contains_indexOutOfRange i n :
  GoStrings.Contains (Engine.indexOutOfRange i n) "no such attribute" = false.
Proof.
  unfold Engine.indexOutOfRange.
  change (GoStrings.Contains
            (pretty i +:+ ("' out of range in list size '" +:+ pretty n +:+ "'"))
            "no such attribute" = false).
  rewrite Contains_skip by apply pretty_Z_no_n.
  change (GoStrings.Contains (pretty n +:+ "'") "no such attribute" = false).
  rewrite Contains_skip by apply pretty_nat_no_n.
  reflexivity.
Qed.

(** The text of a missing key is not of the shape the pattern recognises,
    whatever the key. *)
Lemma noSuchKey_no_match k :
  Regexp.FindStringSubmatch noSuchAttributeErrMessage (Engine.noSuchKey k) = None.
Proof. reflexivity. Qed.

End FailureTexts.

End TextFacts.

(** ** The engine: the monadic run and its outcome, cost and trace *)

Module EngineFacts.
Import Engine.

Lemma bind_Some {A B} (m : M A) (f : A → M B) st a st' :
  m st = (Some a, st') → (m ≫= f) st = f a st'.
Proof. unfold mbind, M_bind. by intros ->. Qed.

Lemma bind_None {A B} (m : M A) (f : A → M B) st :
  (m st).1 = None → ((m ≫= f) st).1 = None.
Proof. unfold mbind, M_bind. destruct (m st) as [[a|] st']; simpl; done. Qed.

Section Eval.
Variable cost : Expr → N.
Variable env : Env.
Variable vars : Activation.

Lemma isKnownBool_true b r : isKnownBool b r = true → r = Known (VBool b).
Proof. destruct r as [[]| |], b; simpl; try done; by destruct b0. Qed.

(** A visit without a limit: the charge, the body, the entry. *)
Lemma visit_unbounded e m st r st' :
  m {| used := used st + cost e; trace := trace st |} = (Some r, st') →
  visit cost None e m st =
    (Some r, {| used := used st'; trace := trace st' ++ [(idOf e, r)] |}).
Proof.
  intros Hm. unfold visit.
  unfold mbind at 1, M_bind at 1. simpl.
  unfold mbind at 1, M_bind at 1. rewrite Hm. done.
Qed.

(** One step of [eval]. *)
Lemma eval_unfold limit e :
  eval cost env limit vars e =
  visit cost limit e
    match e with
    | Const _ v => mret (Known v)
    | Ident id x => mret (readParameter env vars id x)
    | Not _ a => ra ← eval cost env limit vars a ; mret (notRes ra)
    | And _ a b =>
        ra ← eval cost env limit vars a ;
        if isKnownBool false ra then mret (Known (VBool false))
        else rb ← eval cost env limit vars b ; mret (andRes ra rb)
    | Or _ a b =>
        ra ← eval cost env limit vars a ;
        if isKnownBool true ra then mret (Known (VBool true))
        else rb ← eval cost env limit vars b ; mret (orRes ra rb)
    | Call _ f a b =>
        ra ← eval cost env limit vars a ; rb ← eval cost env limit vars b ;
        mret (callRes f ra rb)
    end.
Proof. by destruct e. Qed.

(** Without a limit the engine runs to the end: its outcome is [resOf], and
    it adds [costOf] to the counter and [traceOf] to the trace. *)
Lemma eval_unbounded e st :
  eval cost env None vars e st = (Some (resOf env vars e), after cost env vars st e).
Proof.
  revert st. induction e as [id v|id x|id a IHa|id a IHa b IHb|id a IHa b IHb|id f a IHa b IHb];
    intros st; rewrite eval_unfold; cbv beta iota.
  - erewrite visit_unbounded; [|reflexivity]. unfold Engine.after. simpl. do 3 f_equal. lia.
  - erewrite visit_unbounded; [|reflexivity]. unfold Engine.after. simpl. do 3 f_equal. lia.
  - erewrite visit_unbounded; [|erewrite bind_Some; [|apply IHa]; reflexivity].
    unfold Engine.after. simpl. f_equal. f_equal; [lia|].
    by rewrite <- app_assoc.
  - destruct (isKnownBool false (resOf env vars a)) eqn:Ha.
    + erewrite visit_unbounded;
        [|erewrite bind_Some; [|apply IHa]; rewrite Ha; reflexivity].
      apply isKnownBool_true in Ha. unfold Engine.after; simpl. rewrite Ha. simpl.
      f_equal. f_equal; [lia|]. by rewrite app_nil_r, <- app_assoc.
    + erewrite visit_unbounded;
        [|erewrite bind_Some; [|apply IHa]; rewrite Ha;
          erewrite bind_Some; [|apply IHb]; reflexivity].
      unfold Engine.after; simpl. rewrite Ha. f_equal. f_equal; [lia|].
      by rewrite <- !app_assoc.
  - destruct (isKnownBool true (resOf env vars a)) eqn:Ha.
    + erewrite visit_unbounded;
        [|erewrite bind_Some; [|apply IHa]; rewrite Ha; reflexivity].
      apply isKnownBool_true in Ha. unfold Engine.after; simpl. rewrite Ha. simpl.
      f_equal. f_equal; [lia|]. by rewrite app_nil_r, <- app_assoc.
    + erewrite visit_unbounded;
        [|erewrite bind_Some; [|apply IHa]; rewrite Ha;
          erewrite bind_Some; [|apply IHb]; reflexivity].
      unfold Engine.after; simpl. rewrite Ha. f_equal. f_equal; [lia|].
      by rewrite <- !app_assoc.
  - erewrite visit_unbounded; last first.
    { erewrite bind_Some; [|apply IHa]. erewrite bind_Some; [|apply IHb]. reflexivity. }
    unfold Engine.after; simpl. f_equal. f_equal; [lia|]. by rewrite <- !app_assoc.
Qed.

Lemma visit_within k e m m' st :
  (used st + cost e ≤ k)%N →
  m {| used := used st + cost e; trace := trace st |} =
  m' {| used := used st + cost e; trace := trace st |} →
  visit cost (Some k) e m st = visit cost None e m' st.
Proof.
  intros Hk Hm. unfold visit, mbind, M_bind, charge. simpl.
  destruct (N.ltb_spec k (used st + cost e)); [lia|]. by rewrite Hm.
Qed.

Lemma visit_exceeds k e m st :
  (k < used st + cost e)%N ∨
  (m {| used := used st + cost e; trace := trace st |}).1 = None →
  (visit cost (Some k) e m st).1 = None.
Proof.
  intros H. unfold visit, mbind, M_bind, charge. simpl.
  destruct (N.ltb_spec k (used st + cost e)); [done|].
  destruct H as [?|H]; [lia|].
  by destruct (m _) as [[r|] st'].
Qed.

(** Within the limit the engine runs as it does without one. *)
Lemma eval_within k e st :
  (used st + costOf cost env vars e ≤ k)%N →
  eval cost env (Some k) vars e st = eval cost env None vars e st.
Proof.
  revert st. induction e as [id v|id x|id a IHa|id a IHa b IHb|id a IHa b IHb|id f a IHa b IHb];
    intros st Hk;
    match goal with
    | |- eval _ _ _ _ ?e _ = _ => rewrite (eval_unfold (Some k) e), (eval_unfold None e)
    end; cbv beta iota; simpl in Hk;
    (apply visit_within; [lia|]).
  - done.
  - done.
  - unfold mbind, M_bind. rewrite IHa by (simpl; lia). done.
  - unfold mbind, M_bind. rewrite IHa by (simpl; lia).
    rewrite eval_unbounded.
    destruct (isKnownBool false (resOf env vars a)); [done|].
    rewrite IHb by (simpl; lia). done.
  - unfold mbind, M_bind. rewrite IHa by (simpl; lia).
    rewrite eval_unbounded.
    destruct (isKnownBool true (resOf env vars a)); [done|].
    rewrite IHb by (simpl; lia). done.
  - unfold mbind, M_bind. rewrite IHa by (simpl; lia).
    rewrite eval_unbounded.
    rewrite IHb by (simpl; lia). done.
Qed.

(** Past the limit the engine stops. *)
Lemma eval_exceeds k e st :
  (k < used st + costOf cost env vars e)%N →
  (eval cost env (Some k) vars e st).1 = None.
Proof.
  revert st. induction e as [id v|id x|id a IHa|id a IHa b IHb|id a IHa b IHb|id f a IHa b IHb];
    intros st Hk;
    match goal with
    | |- (eval _ _ _ _ ?e _).1 = _ =>
        rewrite (eval_unfold (Some k) e); cbv beta iota; simpl in Hk;
        apply visit_exceeds;
        destruct (N.ltb_spec k (used st + cost e)) as [|Hc]; [by left|right]
    end.
  - lia.
  - lia.
  - apply bind_None, IHa. simpl. lia.
  - set (st1 := {| used := used st + cost (And id a b); trace := trace st |}).
    destruct (N.ltb_spec k (used st1 + costOf cost env vars a)) as [|Ha];
      [by apply bind_None, IHa|].
    erewrite bind_Some; [|rewrite eval_within by done; apply eval_unbounded].
    destruct (isKnownBool false (resOf env vars a)); [simpl in *; lia|].
    apply bind_None, IHb. simpl in *. lia.
  - set (st1 := {| used := used st + cost (Or id a b); trace := trace st |}).
    destruct (N.ltb_spec k (used st1 + costOf cost env vars a)) as [|Ha];
      [by apply bind_None, IHa|].
    erewrite bind_Some; [|rewrite eval_within by done; apply eval_unbounded].
    destruct (isKnownBool true (resOf env vars a)); [simpl in *; lia|].
    apply bind_None, IHb. simpl in *. lia.
  - set (st1 := {| used := used st + cost (Call id f a b); trace := trace st |}).
    destruct (N.ltb_spec k (used st1 + costOf cost env vars a)) as [|Ha];
      [by apply bind_None, IHa|].
    erewrite bind_Some; [|rewrite eval_within by done; apply eval_unbounded].
    apply bind_None, IHb. simpl in *. lia.
Qed.

End Eval.

Section Outcomes.
Variable env : Env.
Variable vars : Activation.

(** The failures of a function: a type mismatch, a key a map does not
    hold, a position a list does not have. *)
Lemma applyFunction_Error f x y m :
  applyFunction f x y = Error m →
  m = noOverload ∨ (∃ k, m = noSuchKey k) ∨ (∃ i n, m = indexOutOfRange i n).
Proof.
  destruct f, x, y; simpl; intros H; simplify_eq; auto;
    repeat case_match; simplify_eq; eauto.
Qed.

(** The failures of the engine are those of its functions and the
    references to undeclared names. *)
Lemma resOf_Failed e m :
  resOf env vars e = Failed m →
  m = noOverload ∨ m = undeclaredReference ∨
  (∃ k, m = noSuchKey k) ∨ (∃ i n, m = indexOutOfRange i n).
Proof.
  revert m. induction e as [id v|id x|id a IHa|id a IHa b IHb|id a IHa b IHb|id f a IHa b IHb];
    intros m; simpl.
  - done.
  - unfold readParameter. destruct (vars !! x); [done|].
    destruct (env !! x); intros; simplify_eq; auto.
  - destruct (resOf env vars a) as [[]| |]; simpl; intros; simplify_eq; auto.
  - unfold andRes.
    destruct (resOf env vars a) as [[[]| | | |]| |], (resOf env vars b) as [[[]| | | |]| |]; simpl;
      intros; simplify_eq; auto.
  - unfold orRes.
    destruct (resOf env vars a) as [[[]| | | |]| |], (resOf env vars b) as [[[]| | | |]| |]; simpl;
      intros; simplify_eq; auto.
  - unfold callRes.
    destruct (resOf env vars a) as [x| |], (resOf env vars b) as [y| |]; simpl;
      try destruct (applyFunction f x y) eqn:Hf; intros; simplify_eq; auto.
    apply applyFunction_Error in Hf. tauto.
Qed.

(** An unknown outcome is the blocking signal of one parameter of the
    expression, declared and left unbound by the context. *)
Lemma resOf_Unknown e id x :
  resOf env vars e = Unknown id x →
  x ∈ idents e ∧ vars !! x = None ∧ is_Some (env !! x).
Proof.
  induction e as [i v|i y|i a IHa|i a IHa b IHb|i a IHa b IHb|i f a IHa b IHb]; simpl.
  - done.
  - unfold readParameter. destruct (vars !! y) eqn:Hy; [done|].
    destruct (env !! y) eqn:Hd; intros; simplify_eq.
    split; [by apply list_elem_of_singleton|]. eauto.
  - destruct (resOf env vars a) as [[]| |]; simpl; intros; simplify_eq; auto.
  - unfold andRes. rewrite elem_of_app.
    destruct (resOf env vars a) as [[[]| | | |]| |], (resOf env vars b) as [[[]| | | |]| |]; simpl;
      intros; simplify_eq; try (destruct IHa as (? & ? & ?); [done|]; by auto);
      try (destruct IHb as (? & ? & ?); [done|]; by auto).
  - unfold orRes. rewrite elem_of_app.
    destruct (resOf env vars a) as [[[]| | | |]| |], (resOf env vars b) as [[[]| | | |]| |]; simpl;
      intros; simplify_eq; try (destruct IHa as (? & ? & ?); [done|]; by auto);
      try (destruct IHb as (? & ? & ?); [done|]; by auto).
  - unfold callRes. rewrite elem_of_app.
    destruct (resOf env vars a) as [u| |], (resOf env vars b) as [w| |]; simpl;
      try destruct (applyFunction f u w); intros; simplify_eq;
      try (destruct IHa as (? & ? & ?); [done|]; by auto);
      try (destruct IHb as (? & ? & ?); [done|]; by auto).
Qed.

End Outcomes.

Lemma andRes_false_r r : andRes r (Known (VBool false)) = Known (VBool false).
Proof. unfold andRes. simpl. by rewrite orb_true_r. Qed.

Lemma orRes_true_r r : orRes r (Known (VBool true)) = Known (VBool true).
Proof. unfold orRes. simpl. by rewrite orb_true_r. Qed.

(** When a connective or a function is decided, and why. *)
Lemma andRes_Known ra rb v :
  andRes ra rb = Known v →
  (ra = Known (VBool false) ∧ v = VBool false) ∨
  (rb = Known (VBool false) ∧ v = VBool false) ∨
  (ra = Known (VBool true) ∧ rb = Known (VBool true) ∧ v = VBool true).
Proof.
  unfold andRes.
  destruct ra as [[[]| | | |]| |], rb as [[[]| | | |]| |]; simpl; intros; simplify_eq; auto.
Qed.

Lemma orRes_Known ra rb v :
  orRes ra rb = Known v →
  (ra = Known (VBool true) ∧ v = VBool true) ∨
  (rb = Known (VBool true) ∧ v = VBool true) ∨
  (ra = Known (VBool false) ∧ rb = Known (VBool false) ∧ v = VBool false).
Proof.
  unfold orRes.
  destruct ra as [[[]| | | |]| |], rb as [[[]| | | |]| |]; simpl; intros; simplify_eq; auto.
Qed.

Lemma notRes_Known ra v :
  notRes ra = Known v → ∃ b, ra = Known (VBool b) ∧ v = VBool (negb b).
Proof. destruct ra as [[]| |]; simpl; intros; simplify_eq; eauto. Qed.

Lemma callRes_Known f ra rb v :
  callRes f ra rb = Known v →
  ∃ x y, ra = Known x ∧ rb = Known y ∧ applyFunction f x y = Ok v.
Proof.
  unfold callRes. destruct ra as [x| |], rb as [y| |]; try done.
  destruct (applyFunction f x y) eqn:E; intros; simplify_eq; eauto.
Qed.

(** Binding more parameters keeps what was decided. *)
Lemma resOf_mono (env : Env) (vars1 vars2 : Activation) e v :
  vars1 ⊆ vars2 → resOf env vars1 e = Known v → resOf env vars2 e = Known v.
Proof.
  intros Hsub. revert v.
  induction e as [i w|i y|i a IHa|i a IHa b IHb|i a IHa b IHb|i f a IHa b IHb];
    intros v; simpl.
  - done.
  - unfold readParameter. destruct (vars1 !! y) eqn:Hy.
    + by rewrite (lookup_weaken _ _ _ _ Hy Hsub).
    + by destruct (env !! y).
  - intros (b & Ha & ->)%notRes_Known. by rewrite (IHa _ Ha).
  - intros [[Ha ->]|[[Hb ->]|(Ha & Hb & ->)]]%andRes_Known.
    + by rewrite (IHa _ Ha).
    + by rewrite (IHb _ Hb), andRes_false_r.
    + by rewrite (IHa _ Ha), (IHb _ Hb).
  - intros [[Ha ->]|[[Hb ->]|(Ha & Hb & ->)]]%orRes_Known.
    + by rewrite (IHa _ Ha).
    + by rewrite (IHb _ Hb), orRes_true_r.
    + by rewrite (IHa _ Ha), (IHb _ Hb).
  - intros (x & y & Ha & Hb & Hf)%callRes_Known.
    rewrite (IHa _ Ha), (IHb _ Hb). simpl. by rewrite Hf.
Qed.

End EngineFacts.

(** ** The pruner *)

Module PruneFacts.
Import Engine EngineFacts.

Lemma lookupState_app l1 l2 i :
  lookupState (l1 ++ l2) i =
  match lookupState l1 i with
  | Some r => Some r
  | None => lookupState l2 i
  end.
Proof.
  induction l1 as [|[j r] l1 IH]; simpl; [done|].
  by destruct (j =? i)%N.
Qed.

(** A lookup that misses what comes before and after falls in the middle. *)
Lemma lookupState_frame pre mid post i :
  lookupState pre i = None →
  (lookupState mid i = None → lookupState post i = None) →
  lookupState (pre ++ mid ++ post) i = lookupState mid i.
Proof.
  intros Hpre Hpost. rewrite !lookupState_app, Hpre.
  destruct (lookupState mid i); auto.
Qed.

Lemma lookupState_single_ne j r i : j ≠ i → lookupState [(j, r)] i = None.
Proof. intros H. simpl. by destruct (N.eqb_spec j i). Qed.

Lemma lookupState_single j r : lookupState [(j, r)] j = Some r.
Proof. simpl. by rewrite N.eqb_refl. Qed.

Section Trace.
Variable env : Env.
Variable vars : Activation.

Lemma traceOf_unfold e :
  traceOf env vars e =
  match e with
  | Const _ _ | Ident _ _ => []
  | Not _ a => traceOf env vars a
  | And _ a b =>
      traceOf env vars a ++ (if isKnownBool false (resOf env vars a) then [] else traceOf env vars b)
  | Or _ a b =>
      traceOf env vars a ++ (if isKnownBool true (resOf env vars a) then [] else traceOf env vars b)
  | Call _ _ a b => traceOf env vars a ++ traceOf env vars b
  end ++ [(idOf e, resOf env vars e)].
Proof. by destruct e. Qed.

(** The trace has entries for identifiers of the expression only. *)
Lemma traceOf_outside e i : i ∉ ids e → lookupState (traceOf env vars e) i = None.
Proof.
  induction e as [j v|j y|j a IHa|j a IHa b IHb|j a IHa b IHb|j f a IHa b IHb];
    simpl; rewrite ?not_elem_of_cons, ?not_elem_of_app; intros H;
    rewrite ?lookupState_app.
  - apply lookupState_single_ne. by destruct H.
  - apply lookupState_single_ne. by destruct H.
  - destruct H as [Hj Ha]. rewrite IHa by done. by apply lookupState_single_ne.
  - destruct H as (Hj & Ha & Hb). rewrite IHa by done.
    destruct (isKnownBool false (resOf env vars a)); simpl; rewrite ?IHb by done;
      by apply lookupState_single_ne.
  - destruct H as (Hj & Ha & Hb). rewrite IHa by done.
    destruct (isKnownBool true (resOf env vars a)); simpl; rewrite ?IHb by done;
      by apply lookupState_single_ne.
  - destruct H as (Hj & Ha & Hb). rewrite IHa, IHb by done.
    by apply lookupState_single_ne.
Qed.

(** With distinct identifiers, the trace holds the outcome of the root
    under the root's identifier. *)
Lemma traceOf_root e :
  NoDup (ids e) → lookupState (traceOf env vars e) (idOf e) = Some (resOf env vars e).
Proof.
  intros Hnd. rewrite traceOf_unfold, lookupState_app, lookupState_single.
  destruct e as [j v|j y|j a|j a b|j a b|j f a b]; simpl in *;
    apply NoDup_cons in Hnd as [Hj _]; try done;
    rewrite ?not_elem_of_app in Hj.
  - by rewrite traceOf_outside.
  - rewrite lookupState_app, traceOf_outside by apply Hj.
    destruct (isKnownBool false _); [done|]. by rewrite traceOf_outside by apply Hj.
  - rewrite lookupState_app, traceOf_outside by apply Hj.
    destruct (isKnownBool true _); [done|]. by rewrite traceOf_outside by apply Hj.
  - rewrite lookupState_app, !traceOf_outside by apply Hj. done.
Qed.

(** A state that agrees with the trace of the whole on the identifiers of a
    part, the part lying between [pre] and [post] in that trace, agrees with
    the trace of the part. *)
Lemma sub_agree tr whole pre post e' :
  whole = pre ++ traceOf env vars e' ++ post →
  (∀ i, i ∈ ids e' → lookupState pre i = None ∧ lookupState post i = None) →
  (∀ i, i ∈ ids e' → lookupState tr i = lookupState whole i) →
  ∀ i, i ∈ ids e' → lookupState tr i = lookupState (traceOf env vars e') i.
Proof.
  intros -> Hout Htr i Hi. rewrite Htr by done.
  destruct (Hout i Hi) as [Hpre Hpost]. by apply lookupState_frame.
Qed.

End Trace.

Lemma Known_or_not r : (∃ v, r = Known v) ∨ (∀ v, r ≠ Known v).
Proof. destruct r; eauto. Qed.

Lemma PruneAst_decided e state v :
  lookupState state (idOf e) = Some (Known v) → PruneAst e state = Const (idOf e) v.
Proof. intros H. destruct e; simpl in *; by rewrite H. Qed.

Lemma PruneAst_undecided e state r :
  lookupState state (idOf e) = Some r → (∀ v, r ≠ Known v) →
  PruneAst e state =
  match e with
  | Not id a => Not id (PruneAst a state)
  | And id a b => And id (PruneAst a state) (PruneAst b state)
  | Or id a b => Or id (PruneAst a state) (PruneAst b state)
  | Call id f a b => Call id f (PruneAst a state) (PruneAst b state)
  | Const _ _ | Ident _ _ => e
  end.
Proof.
  intros H Hr. destruct e; simpl in *; rewrite H;
    destruct r as [w| |]; try done; by destruct (Hr w).
Qed.

Lemma andRes_undecided ra rb :
  (∀ v, andRes ra rb ≠ Known v) → isKnownBool false ra = false.
Proof.
  intros H. destruct (isKnownBool false ra) eqn:E; [|done].
  apply isKnownBool_true in E as ->. by destruct (H (VBool false)).
Qed.

Lemma orRes_undecided ra rb :
  (∀ v, orRes ra rb ≠ Known v) → isKnownBool true ra = false.
Proof.
  intros H. destruct (isKnownBool true ra) eqn:E; [|done].
  apply isKnownBool_true in E as ->. by destruct (H (VBool true)).
Qed.

Section Prune.
Variable env : Env.
Variables vars1 vars2 : Activation.
Hypothesis Hsub : vars1 ⊆ vars2.
Variable tr : EvalState.

(** The two operands of a node whose trace is that of [a], that of [b] and
    the entry of the node. *)
Lemma operands_sound j r a b :
  j ∉ ids a ++ ids b → NoDup (ids a ++ ids b) →
  (∀ i, i ∈ ids a ++ ids b →
     lookupState tr i
     = lookupState (traceOf env vars1 a ++ traceOf env vars1 b ++ [(j, r)]) i) →
  (∀ i, i ∈ ids a → lookupState tr i = lookupState (traceOf env vars1 a) i) ∧
  (∀ i, i ∈ ids b → lookupState tr i = lookupState (traceOf env vars1 b) i).
Proof.
  intros Hj (Hna & Hab & Hnb)%NoDup_app Htr.
  rewrite not_elem_of_app in Hj. destruct Hj as [Hja Hjb]. split.
  - apply (sub_agree env vars1 tr (traceOf env vars1 a ++ traceOf env vars1 b ++ [(j, r)]) []
             (traceOf env vars1 b ++ [(j, r)])); [done| |].
    + intros i Hi. split; [done|].
      rewrite lookupState_app, traceOf_outside by (by apply Hab).
      apply lookupState_single_ne. by intros ->.
    + intros i Hi. apply Htr. rewrite elem_of_app. by left.
  - apply (sub_agree env vars1 tr (traceOf env vars1 a ++ traceOf env vars1 b ++ [(j, r)])
             (traceOf env vars1 a) [(j, r)]); [done| |].
    + intros i Hi. split.
      * apply traceOf_outside. intros Hi'. by apply (Hab i).
      * apply lookupState_single_ne. by intros ->.
    + intros i Hi. apply Htr. rewrite elem_of_app. by right.
Qed.

(** The residual, evaluated under any extension of the bindings the trace
    was recorded with, has the outcome of the original expression. *)
Lemma prune_sound e :
  NoDup (ids e) →
  (∀ i, i ∈ ids e → lookupState tr i = lookupState (traceOf env vars1 e) i) →
  resOf env vars2 (PruneAst e tr) = resOf env vars2 e.
Proof.
  induction e as [j v|j y|j a IHa|j a IHa b IHb|j a IHa b IHb|j f a IHa b IHb];
    intros Hnd Htr;
    match goal with
    | |- resOf env _ (PruneAst ?e0 _) = _ =>
        assert (Hroot : lookupState tr (idOf e0) = Some (resOf env vars1 e0))
          by (rewrite Htr by (simpl; left); by apply traceOf_root);
        destruct (Known_or_not (resOf env vars1 e0)) as [[w Hw]|Hund];
          [rewrite Hw in Hroot; rewrite (PruneAst_decided _ _ _ Hroot);
           symmetry; by apply (resOf_mono env vars1)
          |rewrite (PruneAst_undecided _ _ _ Hroot Hund)]
    end;
    try done; simpl in Hnd, Htr; apply NoDup_cons in Hnd as [Hj Hnd]; simpl.
  - rewrite IHa; [done..|].
    apply (sub_agree env vars1 tr (traceOf env vars1 (Not j a)) []
             [(j, notRes (resOf env vars1 a))]); [done| |].
    + intros i Hi. split; [done|]. apply lookupState_single_ne. by intros ->.
    + intros i Hi. apply Htr. by right.
  - pose proof (andRes_undecided (resOf env vars1 a) (resOf env vars1 b) Hund) as Hvis.
    rewrite Hvis, <- app_assoc in Htr.
    edestruct (operands_sound j) as [Ha Hb]; [exact Hj|exact Hnd| |].
    { intros i Hi. apply Htr. by right. }
    apply NoDup_app in Hnd as (Hna & _ & Hnb). by rewrite IHa, IHb.
  - pose proof (orRes_undecided (resOf env vars1 a) (resOf env vars1 b) Hund) as Hvis.
    rewrite Hvis, <- app_assoc in Htr.
    edestruct (operands_sound j) as [Ha Hb]; [exact Hj|exact Hnd| |].
    { intros i Hi. apply Htr. by right. }
    apply NoDup_app in Hnd as (Hna & _ & Hnb). by rewrite IHa, IHb.
  - rewrite <- app_assoc in Htr.
    edestruct (operands_sound j) as [Ha Hb]; [exact Hj|exact Hnd| |].
    { intros i Hi. apply Htr. by right. }
    apply NoDup_app in Hnd as (Hna & _ & Hnb). by rewrite IHa, IHb.
Qed.

End Prune.
End PruneFacts.

(** ** The source on the engine *)

Module EvaluateFacts.
Import Engine TextFacts EngineFacts.

Lemma limitFor_config config :
  limitFor config =
  match config with
  | Some c => if (0 <? c.(MaxCost))%N then Some c.(MaxCost) else None
  | None => None
  end.
Proof.
  unfold limitFor, celopts.
  destruct config as [[k]|]; simpl; [destruct (0 <? k)%N|]; reflexivity.
Qed.

Lemma Contains_noSuchAttribute id names :
  GoStrings.Contains (noSuchAttribute id names) "no such attribute" = true.
Proof.
  change (noSuchAttribute id names) with
    ("no such attribute" +:+
     (": id: " +:+ pretty id +:+ ", names: [" +:+ Names.Join names " " +:+ "]")).
  apply Contains_prefix.
Qed.

(** No failure of the engine has a text of the shape the pattern
    recognises: a failure names no parameter. *)
Lemma failure_names env vars e msg :
  resOf env vars e = Failed msg → namesFromError msg = [].
Proof.
  intros [->|[->|[[k ->]|(i & n & ->)]]]%resOf_Failed; reflexivity.
Qed.

(** What the source makes of a failure of the engine: a Partial result
    without names when its text holds [no such attribute], the error of the
    call otherwise. *)
Lemma failure_classified env vars e msg :
  resOf env vars e = Failed msg →
  (GoStrings.Contains msg "no such attribute" = true →
   ∃ k, msg = noSuchKey k ∧ GoStrings.Contains k "no such attribute" = true) ∧
  Regexp.FindStringSubmatch noSuchAttributeErrMessage msg = None.
Proof.
  intros [->|[->|[[k ->]|(i & n & ->)]]]%resOf_Failed.
  - split; [done|reflexivity].
  - split; [done|reflexivity].
  - split; [|apply noSuchKey_no_match]. rewrite Contains_noSuchKey. eauto.
  - split; [|reflexivity]. by rewrite Contains_indexOutOfRange.
Qed.

Section OnEngine.
Variable cost : Expr → N.

Lemma run_completed prg vars :
  match limitOf prg.(prgOpts) with
  | Some k => (costOf cost prg.(prgEnv) vars prg.(prgAst) ≤ k)%N
  | None => True
  end →
  run cost prg vars =
  match resOf prg.(prgEnv) vars prg.(prgAst) with
  | Known v => (Some (Concrete v), completed cost prg.(prgEnv) vars prg.(prgAst), None)
  | Unknown id x =>
      (Some (ErrVal (noSuchAttribute id (legalNames x))),
       completed cost prg.(prgEnv) vars prg.(prgAst),
       Some (noSuchAttribute id (legalNames x)))
  | Failed msg => (Some (ErrVal msg), completed cost prg.(prgEnv) vars prg.(prgAst), Some msg)
  end.
Proof.
  intros Hk. unfold run, Ast_Expr.
  assert (Hrun : eval cost prg.(prgEnv) (limitOf (prgOpts prg)) vars (prgAst prg) initial
                 = (Some (resOf prg.(prgEnv) vars (prgAst prg)), after cost prg.(prgEnv) vars initial (prgAst prg))).
  { destruct (limitOf (prgOpts prg)) as [k|].
    - rewrite eval_within by (simpl; lia). apply eval_unbounded.
    - apply eval_unbounded. }
  fold initial. rewrite Hrun. unfold after, completed. simpl.
  rewrite N.add_0_l. by destruct (resOf prg.(prgEnv) vars (prgAst prg)).
Qed.

Lemma run_exceeded prg vars k :
  limitOf prg.(prgOpts) = Some k →
  (k < costOf cost prg.(prgEnv) vars prg.(prgAst))%N →
  ∃ d, run cost prg vars = (None, d, Some costLimitExceeded).
Proof.
  intros Hl Hk. unfold run, Ast_Expr. rewrite Hl. fold initial.
  pose proof (eval_exceeds cost prg.(prgEnv) vars k (prgAst prg) initial) as Hx.
  destruct (eval cost prg.(prgEnv) (Some k) vars (prgAst prg) initial) as [r st].
  simpl in Hx. rewrite Hx by lia. eauto.
Qed.

Lemma Evaluate_exceeded caveat ctx config k :
  limitFor config = Some k →
  (k < costOf cost caveat.(celEnv) ctx caveat.(ast))%N →
  EvaluateCaveatWithConfig (runtime cost) caveat ctx config = Error costLimitExceeded.
Proof.
  intros Hl Hk. unfold EvaluateCaveatWithConfig.
  cbn [env_Program cel_PartialVars prg_Eval runtime Program PartialVars].
  destruct (run_exceeded {| prgEnv := celEnv caveat; prgAst := ast caveat;
                            prgOpts := celopts config |} ctx k Hl Hk) as [d ->].
  reflexivity.
Qed.

Lemma Evaluate_completed caveat ctx config :
  match limitFor config with
  | Some k => (costOf cost caveat.(celEnv) ctx caveat.(ast) ≤ k)%N
  | None => True
  end →
  EvaluateCaveatWithConfig (runtime cost) caveat ctx config =
  match resOf caveat.(celEnv) ctx caveat.(ast) with
  | Known v =>
      Ok {| val := Some (Concrete v);
            details := completed cost caveat.(celEnv) ctx caveat.(ast);
            parentCaveat := caveat;
            contextValues := ctx;
            missingVarNames := [];
            isPartial := false |}
  | Unknown id x =>
      Ok {| val := Some (ErrVal (noSuchAttribute id (legalNames x)));
            details := completed cost caveat.(celEnv) ctx caveat.(ast);
            parentCaveat := caveat;
            contextValues := ctx;
            missingVarNames := namesFromError (noSuchAttribute id (legalNames x));
            isPartial := true |}
  | Failed msg =>
      if GoStrings.Contains msg "no such attribute"
      then Ok {| val := Some (ErrVal msg);
                 details := completed cost caveat.(celEnv) ctx caveat.(ast);
                 parentCaveat := caveat;
                 contextValues := ctx;
                 missingVarNames := [];
                 isPartial := true |}
      else Error msg
  end.
Proof.
  intros Hk. unfold EvaluateCaveatWithConfig.
  cbn [env_Program cel_PartialVars prg_Eval runtime Program PartialVars].
  rewrite run_completed by exact Hk. cbn [prgAst prgEnv].
  destruct (resOf caveat.(celEnv) ctx (ast caveat)) as [v|id x|msg] eqn:Hr.
  - reflexivity.
  - rewrite Contains_noSuchAttribute. unfold namesFromError.
    by destruct (Regexp.FindStringSubmatch _ _).
  - destruct (failure_classified _ _ _ _ Hr) as [_ ->]. simpl.
    by destruct (GoStrings.Contains msg _).
Qed.

(** Under [EvaluateCaveat] there is no limit. *)
Lemma EvaluateCaveat_completed caveat ctx :
  EvaluateCaveat (runtime cost) caveat ctx =
  match resOf caveat.(celEnv) ctx caveat.(ast) with
  | Known v =>
      Ok {| val := Some (Concrete v);
            details := completed cost caveat.(celEnv) ctx caveat.(ast);
            parentCaveat := caveat;
            contextValues := ctx;
            missingVarNames := [];
            isPartial := false |}
  | Unknown id x =>
      Ok {| val := Some (ErrVal (noSuchAttribute id (legalNames x)));
            details := completed cost caveat.(celEnv) ctx caveat.(ast);
            parentCaveat := caveat;
            contextValues := ctx;
            missingVarNames := namesFromError (noSuchAttribute id (legalNames x));
            isPartial := true |}
  | Failed msg =>
      if GoStrings.Contains msg "no such attribute"
      then Ok {| val := Some (ErrVal msg);
                 details := completed cost caveat.(celEnv) ctx caveat.(ast);
                 parentCaveat := caveat;
                 contextValues := ctx;
                 missingVarNames := [];
                 isPartial := true |}
      else Error msg
  end.
Proof. unfold EvaluateCaveat. by apply Evaluate_completed. Qed.

Lemma requiredCost_costOf env e vars :
  requiredCost cost env e vars = costOf cost env vars e.
Proof. unfold requiredCost. rewrite eval_unbounded. simpl. lia. Qed.

End OnEngine.
End EvaluateFacts.

(* ===================================================================== *)
(** * The result accessors *)
(* ===================================================================== *)

Section Accessors.

Lemma assertBool_Returns v b :
  assertBool v = Returns b ↔ v = Some (Concrete (VBool b)).
Proof.
  unfold assertBool. split.
  - destruct v as [[[]|]|]; simpl; intros; simplify_eq; done.
  - intros ->. done.
Qed.

Lemma assertBool_Panics v :
  assertBool v = Panics ↔ ∀ b, v ≠ Some (Concrete (VBool b)).
Proof.
  unfold assertBool. split.
  - destruct v as [[[]|]|]; simpl; intros; simplify_eq; done.
  - intros H. destruct v as [[[]|]|]; simpl; try done. by destruct (H b).
Qed.

Lemma DecidedAs_observe r b :
  DecidedAs r b ↔ ∃ m, observe r = Ok (false, Returns b, m).
Proof.
  unfold DecidedAs, observe. split.
  - intros (cr & -> & Hp & Hv). rewrite Hp, Hv. eauto.
  - destruct r as [cr|]; intros [m Hm]; [|done].
    exists cr. by simplify_eq.
Qed.

End Accessors.

(** C7.  On a Decided result both [PartialValue] and [MissingVarNames]
    return the error "result is fully evaluated" and no value; on a Partial
    result [MissingVarNames] returns the attached list of names, possibly
    empty, and no error.  The accessors are total: neither can panic. *)
Theorem accessors_on_decided_and_partial (rt : CelRuntime) (cr : CaveatResult) :
  (IsPartial cr = false →
     PartialValue rt cr = Error "result is fully evaluated" ∧
     MissingVarNames cr = Error "result is fully evaluated") ∧
  (IsPartial cr = true → MissingVarNames cr = Ok cr.(missingVarNames)).
Proof.
  unfold IsPartial, PartialValue, MissingVarNames.
  split; intros ->; simpl; auto.
Qed.

Lemma accessors_on_decided_and_partial_witness :
  (IsPartial Scenario.decidedTrue = false ∧
   PartialValue Scenario.rt Scenario.decidedTrue = Error "result is fully evaluated" ∧
   MissingVarNames Scenario.decidedTrue = Error "result is fully evaluated") ∧
  (IsPartial Scenario.blockedOnCountry = true ∧
   MissingVarNames Scenario.blockedOnCountry = Ok ["country"]).
Proof.
  split; (split; [reflexivity|]).
  - apply (proj1 (accessors_on_decided_and_partial Scenario.rt Scenario.decidedTrue)).
    reflexivity.
  - apply (proj2 (accessors_on_decided_and_partial Scenario.rt Scenario.blockedOnCountry)).
    reflexivity.
Defined.

(** C8.  [Value] returns [false], without panicking, on every Partial
    result, whatever the result holds; on a Decided result holding the
    boolean [b] it returns [b]. *)
Theorem Value_of_partial_and_decided (cr : CaveatResult) :
  (IsPartial cr = true → Value cr = Returns false) ∧
  (∀ b : bool, IsPartial cr = false → cr.(val) = Some (Concrete (VBool b)) →
     Value cr = Returns b).
Proof.
  unfold IsPartial, Value. split.
  - intros ->. reflexivity.
  - intros b -> ->. reflexivity.
Qed.

Lemma Value_of_partial_and_decided_witness :
  (IsPartial Scenario.blockedOnCountry = true ∧
   Value Scenario.blockedOnCountry = Returns false) ∧
  (IsPartial Scenario.decidedTrue = false ∧
   Scenario.decidedTrue.(val) = Some (Concrete (VBool true)) ∧
   Value Scenario.decidedTrue = Returns true).
Proof.
  split.
  - split; [reflexivity|].
    apply (proj1 (Value_of_partial_and_decided Scenario.blockedOnCountry)). reflexivity.
  - split; [reflexivity|]. split; [reflexivity|].
    apply (proj2 (Value_of_partial_and_decided Scenario.decidedTrue) true); reflexivity.
Defined.

(** C10.  On a Decided result [Value] asserts the type of the evaluated
    value without a check: it panics exactly when the value is not a
    boolean (a nil value included), so it returns on every result only if
    every Decided result holds a boolean.  [EvaluateCaveatWithConfig] does
    not check the type either: whatever value the evaluator returns without
    an error becomes a Decided result, and [Value] panics on it when it is
    not a boolean. *)
Theorem Value_unchecked_assertion :
  (∀ cr : CaveatResult, IsPartial cr = false →
     (Value cr = Panics ↔ ∀ b : bool, cr.(val) ≠ Some (Concrete (VBool b)))) ∧
  (∀ cr : CaveatResult,
     Value cr ≠ Panics ↔
     IsPartial cr = true ∨ ∃ b : bool, cr.(val) = Some (Concrete (VBool b))) ∧
  (∀ (rt : CelRuntime) caveat ctx config prg pvars v d,
     rt.(env_Program) caveat.(celEnv) caveat.(ast) (celopts config) = Ok prg →
     rt.(cel_PartialVars) ctx = Ok pvars →
     rt.(prg_Eval) prg pvars = (Some v, d, None) →
     (∀ b : bool, v ≠ Concrete (VBool b)) →
     ∃ cr, EvaluateCaveatWithConfig rt caveat ctx config = Ok cr ∧
           IsPartial cr = false ∧ Value cr = Panics).
Proof.
  split_and!.
  - intros cr. unfold IsPartial, Value. intros ->. apply assertBool_Panics.
  - intros cr. unfold IsPartial, Value. destruct (isPartial cr).
    + split; [by left|done].
    + split.
      * intros H. right. destruct (assertBool (val cr)) as [b|] eqn:E; [|done].
        exists b. by apply assertBool_Returns.
      * intros [?|[b Hb]]; [done|]. apply assertBool_Returns in Hb. by rewrite Hb.
  - intros rt caveat ctx config prg pvars v d Hprg Hvars Hrun Hv.
    unfold EvaluateCaveatWithConfig. rewrite Hprg, Hvars, Hrun.
    eexists. split; [reflexivity|]. split; [reflexivity|].
    unfold Value. simpl. destruct v as [[]|]; simpl; try done. by destruct (Hv b).
Qed.

Lemma Value_unchecked_assertion_witness :
  (IsPartial Scenario.decidedNumber = false ∧ Value Scenario.decidedNumber = Panics) ∧
  (∃ cr, EvaluateCaveatWithConfig
           (Scenario.answering (Some (Concrete (VInt 7))) None)
           Scenario.adult Scenario.age20 None = Ok cr ∧
         IsPartial cr = false ∧ Value cr = Panics).
Proof.
  destruct Value_unchecked_assertion as (Hpanics & _ & Hreach). split.
  - split; [reflexivity|]. apply (Hpanics Scenario.decidedNumber); [reflexivity|].
    intros b. discriminate.
  - apply (Hreach (Scenario.answering (Some (Concrete (VInt 7))) None)
             Scenario.adult Scenario.age20 None
             {| prgEnv := Scenario.adult.(celEnv); prgAst := Scenario.adult.(ast);
                prgOpts := celopts None |}
             Scenario.age20 (Concrete (VInt 7)) {| State := []; ActualCost := 0 |});
      try reflexivity.
    intros b. discriminate.
Defined.

(* ===================================================================== *)
(** * Classification of the evaluator's answers *)
(* ===================================================================== *)

Section Classification.

Variable rt : CelRuntime.
Variables (caveat : CompiledCaveat) (ctx : gmap string CelValue).
Variable config : option EvaluationConfig.
Variables (prg : Prg) (pvars : Activation).
Hypothesis Hprg :
  rt.(env_Program) caveat.(celEnv) caveat.(ast) (celopts config) = Ok prg.
Hypothesis Hvars : rt.(cel_PartialVars) ctx = Ok pvars.

(** What [EvaluateCaveatWithConfig] returns for each answer of the
    evaluator. *)
Lemma Evaluate_answer v d err :
  rt.(prg_Eval) prg pvars = (v, d, err) →
  EvaluateCaveatWithConfig rt caveat ctx config =
  match err with
  | Some msg =>
      if bool_decide (v ≠ None) && GoStrings.Contains msg "no such attribute"
      then Ok {| val := v; details := d; parentCaveat := caveat;
                 contextValues := ctx; missingVarNames := namesFromError msg;
                 isPartial := true |}
      else Error msg
  | None =>
      Ok {| val := v; details := d; parentCaveat := caveat;
            contextValues := ctx; missingVarNames := []; isPartial := false |}
  end.
Proof.
  intros Hrun. unfold EvaluateCaveatWithConfig. rewrite Hprg, Hvars, Hrun.
  destruct err as [msg|]; [|done].
  destruct (_ && _); [|done].
  unfold namesFromError. by destruct (Regexp.FindStringSubmatch _ _).
Qed.

End Classification.

(** C9.  Once the program is planned and the context bound, the answer
    [(v, d, err)] of the evaluator is classified as follows.  The result is
    Partial exactly when [v] is not nil and [err] is an error whose text
    contains "no such attribute"; every other error, one with a nil value
    included, is returned as the error of the call.  The names of a Partial
    result come from the error text alone: when the text matches the pattern
    it has the form [no such attribute: id: g1, names: [g2]] and the names
    are the pieces of the second group between spaces; when it does not
    match, the result is still Partial and the list is nil. *)
Theorem partial_classification (rt : CelRuntime) (caveat : CompiledCaveat)
    (ctx : gmap string CelValue) (config : option EvaluationConfig)
    (prg : Prg) (pvars : Activation) (v : option Val) (d : EvalDetails)
    (err : option string) :
  rt.(env_Program) caveat.(celEnv) caveat.(ast) (celopts config) = Ok prg →
  rt.(cel_PartialVars) ctx = Ok pvars →
  rt.(prg_Eval) prg pvars = (v, d, err) →
  ((∃ cr, EvaluateCaveatWithConfig rt caveat ctx config = Ok cr ∧ IsPartial cr = true) ↔
   (v ≠ None ∧ ∃ msg, err = Some msg ∧
                      GoStrings.Contains msg "no such attribute" = true)) ∧
  (∀ msg, err = Some msg →
     ¬ (v ≠ None ∧ GoStrings.Contains msg "no such attribute" = true) →
     EvaluateCaveatWithConfig rt caveat ctx config = Error msg) ∧
  (∀ msg cr found, err = Some msg →
     EvaluateCaveatWithConfig rt caveat ctx config = Ok cr →
     Regexp.FindStringSubmatch noSuchAttributeErrMessage msg = Some found →
     ∃ g1 g2,
       msg = "no such attribute: id: " +:+ g1 +:+ ", names: [" +:+ g2 +:+ "]" ∧
       found = [msg; g1; g2] ∧
       cr.(missingVarNames) = GoStrings.Split g2 " ") ∧
  (∀ msg cr, err = Some msg →
     EvaluateCaveatWithConfig rt caveat ctx config = Ok cr →
     Regexp.FindStringSubmatch noSuchAttributeErrMessage msg = None →
     IsPartial cr = true ∧ cr.(missingVarNames) = []).
Proof.
  intros Hprg Hvars Hrun.
  pose proof (Evaluate_answer rt caveat ctx config prg pvars Hprg Hvars v d err Hrun) as Hev.
  split_and!.
  - rewrite Hev. split.
    + intros (cr & Hcr & Hp). destruct err as [msg|]; [|by simplify_eq].
      destruct (bool_decide (v ≠ None)) eqn:Hv; simpl in Hcr; [|done].
      destruct (GoStrings.Contains msg _) eqn:Hc; [|done].
      apply bool_decide_eq_true in Hv. eauto.
    + intros (Hv & msg & -> & Hc). rewrite Hc, bool_decide_true by done.
      eexists. split; reflexivity.
  - intros msg -> Hnot. rewrite Hev.
    destruct (bool_decide (v ≠ None)) eqn:Hv; [|done].
    destruct (GoStrings.Contains msg _) eqn:Hc; [|done].
    apply bool_decide_eq_true in Hv. by destruct Hnot.
  - intros msg cr found -> Hcr Hfound. rewrite Hev in Hcr.
    destruct (_ && _); [|done]. simplify_eq. simpl.
    unfold namesFromError. rewrite Hfound.
    unfold Regexp.FindStringSubmatch in Hfound.
    destruct (Regexp.matchItems _ msg) as [caps|] eqn:Hm; [|done].
    apply TextFacts.matchItems_sound in Hm as (g1 & g2 & -> & _ & _ & Hmsg).
    exists g1, g2. by simplify_eq.
  - intros msg cr -> Hcr Hnone. rewrite Hev in Hcr.
    destruct (_ && _); [|done]. simplify_eq. simpl.
    unfold namesFromError. by rewrite Hnone.
Qed.

Lemma partial_classification_witness :
  (∃ cr, EvaluateCaveatWithConfig
           (Scenario.answering (Some (ErrVal "no such attribute: id: 6, names: [a b]"))
                               (Some "no such attribute: id: 6, names: [a b]"))
           Scenario.adultInUS Scenario.age20 None = Ok cr ∧
         IsPartial cr = true ∧ cr.(missingVarNames) = ["a"; "b"]) ∧
  EvaluateCaveatWithConfig
    (Scenario.answering None (Some "no such attribute: id: 6, names: [a b]"))
    Scenario.adultInUS Scenario.age20 None
  = Error "no such attribute: id: 6, names: [a b]".
Proof.
  pose (msg := "no such attribute: id: 6, names: [a b]").
  pose (prg := {| prgEnv := Scenario.adultInUS.(celEnv);
                  prgAst := Scenario.adultInUS.(ast);
                  prgOpts := celopts None |}).
  pose (d := {| State := []; ActualCost := 0 |}).
  split.
  - destruct (partial_classification (Scenario.answering (Some (ErrVal msg)) (Some msg))
                Scenario.adultInUS Scenario.age20 None prg Scenario.age20
                (Some (ErrVal msg)) d (Some msg) eq_refl eq_refl eq_refl)
      as (Hiff & _ & Hnames & _).
    destruct (proj2 Hiff) as (cr & Hcr & Hp).
    { split; [done|]. exists msg. split; reflexivity. }
    exists cr. split; [exact Hcr|]. split; [exact Hp|].
    destruct (Hnames msg cr [msg; "6"; "a b"] eq_refl Hcr eq_refl)
      as (g1 & g2 & _ & Hfound & ->).
    injection Hfound as _ <-. reflexivity.
  - destruct (partial_classification (Scenario.answering None (Some msg))
                Scenario.adultInUS Scenario.age20 None prg Scenario.age20
                None d (Some msg) eq_refl eq_refl eq_refl)
      as (_ & Herr & _).
    apply (Herr msg eq_refl). intros [Hv _]. by apply Hv.
Defined.

(* ===================================================================== *)
(** * The residual caveat *)
(* ===================================================================== *)

(** C2 (as amended).  The caveat [PartialValue] returns for a Partial result
    has the name of the parent, the pruned expression as its AST, and the
    parent's environment itself, with every declared parameter. *)
Theorem PartialValue_keeps_name_and_environment (rt : CelRuntime) (cr : CaveatResult) :
  IsPartial cr = true →
  ∃ residual,
    PartialValue rt cr = Ok residual ∧
    residual.(name) = cr.(parentCaveat).(name) ∧
    residual.(celEnv) = cr.(parentCaveat).(celEnv) ∧
    residual.(ast) =
      rt.(interpreter_PruneAst) cr.(parentCaveat).(ast) cr.(details).(State).
Proof.
  unfold IsPartial, PartialValue. intros ->. simpl. eexists. split_and!; reflexivity.
Qed.

Lemma PartialValue_keeps_name_and_environment_witness :
  IsPartial Scenario.blockedOnCountry = true ∧
  ∃ residual,
    PartialValue Scenario.rt Scenario.blockedOnCountry = Ok residual ∧
    residual.(name) = "adult_in_us" ∧
    residual.(celEnv) = {[ "age" := IntType; "country" := StringType ]} ∧
    residual.(ast) =
      And 5 (Const 2 (VBool true))
            (Call 7 Equals (Ident 6 "country") (Const 8 (VString "US"))).
Proof.
  split; [reflexivity|].
  destruct (PartialValue_keeps_name_and_environment Scenario.rt Scenario.blockedOnCountry
              eq_refl) as (residual & Hres & Hname & Henv & Hast).
  exists residual. split; [exact Hres|]. rewrite Hname, Henv, Hast. by vm_compute.
Defined.

(** C2 (as stated) fails: for [age >= 18 && country == "US"] under
    [{age: 20}] the residual mentions [country] only, and its environment
    still declares [age]; it is not the parent's environment restricted to
    the parameters of the residual. *)
Lemma PartialValue_environment_not_restricted :
  ∃ cr residual,
    EvaluateCaveat Scenario.rt Scenario.adultInUS Scenario.age20 = Ok cr ∧
    IsPartial cr = true ∧
    PartialValue Scenario.rt cr = Ok residual ∧
    Engine.idents residual.(ast) = ["country"] ∧
    residual.(celEnv) !! "age" = Some IntType ∧
    ¬ restrictedTo residual.(celEnv) cr.(parentCaveat).(celEnv)
        (Engine.idents residual.(ast)).
Proof.
  eexists. eexists. split; [by vm_compute|]. split; [reflexivity|].
  split; [reflexivity|]. split; [by vm_compute|]. split; [by vm_compute|].
  intros H. specialize (H "age"). vm_compute in H. discriminate.
Qed.

(* ===================================================================== *)
(** * The source on the evaluation engine *)
(* ===================================================================== *)

Module OnEngine.
Import Engine TextFacts EngineFacts PruneFacts EvaluateFacts.

Section Results.
Variable cost : Expr → N.

(** A result of the call is the result of an evaluation that ran to its
    end. *)
Lemma Evaluate_Ok caveat ctx config cr :
  EvaluateCaveatWithConfig (runtime cost) caveat ctx config = Ok cr →
  EvaluateCaveatWithConfig (runtime cost) caveat ctx config =
  EvaluateCaveat (runtime cost) caveat ctx.
Proof.
  intros Hcr. rewrite EvaluateCaveat_completed.
  destruct (limitFor config) as [k|] eqn:Hl.
  - destruct (N.ltb_spec k (costOf cost (celEnv caveat) ctx (ast caveat))) as [Hk|Hk].
    + by rewrite (Evaluate_exceeded cost caveat ctx config k Hl Hk) in Hcr.
    + apply Evaluate_completed. by rewrite Hl.
  - apply Evaluate_completed. by rewrite Hl.
Qed.

Lemma DecidedAs_resOf caveat ctx b :
  DecidedAs (EvaluateCaveat (runtime cost) caveat ctx) b ↔
  resOf caveat.(celEnv) ctx caveat.(ast) = Known (VBool b).
Proof.
  rewrite EvaluateCaveat_completed. unfold DecidedAs. split.
  - intros (cr & Hcr & Hp & Hv).
    destruct (resOf (celEnv caveat) ctx (ast caveat)) as [v|id x|msg];
      [| |destruct (GoStrings.Contains msg _)]; simplify_eq; try done.
    unfold Value in Hv. cbn [isPartial val] in Hv.
    apply assertBool_Returns in Hv. by simplify_eq.
  - intros ->. eexists. split; [reflexivity|]. done.
Qed.

End Results.

Lemma distinct_elem x seen l :
  x ∈ distinct seen l ↔ x ∈ l ∧ x ∉ seen.
Proof.
  revert seen. induction l as [|y l IH]; intros seen; simpl.
  - split; [intros H|intros [H _]]; by apply elem_of_nil in H.
  - case_bool_decide as Hy.
    + rewrite IH, elem_of_cons. split.
      * intros [Hl Hs]. auto.
      * intros [[->|Hl] Hs]; [done|auto].
    + rewrite !elem_of_cons, IH, not_elem_of_cons. split.
      * intros [->|(Hl & Hne & Hs)]; auto.
      * intros [[->|Hl] Hs]; [by left|].
        destruct (decide (x = y)) as [->|Hne]; [by left|by right].
Qed.

Lemma traceOf_last env vars e :
  (idOf e, resOf env vars e) ∈ traceOf env vars e.
Proof.
  rewrite traceOf_unfold, elem_of_app. right. apply list_elem_of_singleton. done.
Qed.

Lemma unknownReads_root env vars e id x :
  resOf env vars e = Unknown id x → x ∈ unknownReads (traceOf env vars e).
Proof.
  intros Hr. unfold unknownReads. apply distinct_elem. split; [|apply not_elem_of_nil].
  apply list_elem_of_omap. exists (idOf e, resOf env vars e).
  split; [apply traceOf_last|]. simpl. by rewrite Hr.
Qed.

End OnEngine.

Import Engine.

(** C5.  If [fe] is decided [false] under a context, [AND(fe, b)] is Decided
    [false] under it for every right operand [b], so also when [b] reads a
    parameter the context leaves unbound: not Partial, not an error.  In the
    same way [OR(te, b)] is Decided [true] when [te] is decided [true]. *)
Theorem short_circuit_decides (cost : Expr → N) (env : Env) (nm : string)
    (ctx : gmap string CelValue) (id : N) (a b : Expr) :
  (DecidedAs (EvaluateCaveat (runtime cost) {| celEnv := env; ast := a; name := nm |} ctx) false →
   DecidedAs (EvaluateCaveat (runtime cost)
                {| celEnv := env; ast := And id a b; name := nm |} ctx) false) ∧
  (DecidedAs (EvaluateCaveat (runtime cost) {| celEnv := env; ast := a; name := nm |} ctx) true →
   DecidedAs (EvaluateCaveat (runtime cost)
                {| celEnv := env; ast := Or id a b; name := nm |} ctx) true).
Proof.
  rewrite !OnEngine.DecidedAs_resOf. simpl. split; intros ->; reflexivity.
Qed.

Lemma short_circuit_decides_witness :
  (Scenario.age15 !! "country" = None ∧
   DecidedAs (EvaluateCaveat Scenario.rt
                {| celEnv := Scenario.adultInUS.(celEnv);
                   ast := Call 2 GreaterEquals (Ident 1 "age") (Const 3 (VInt 18));
                   name := "adult_in_us" |} Scenario.age15) false ∧
   DecidedAs (EvaluateCaveat Scenario.rt Scenario.adultInUS Scenario.age15) false) ∧
  (({[ "a" := VBool true ]} : gmap string CelValue) !! "b" = None ∧
   DecidedAs (EvaluateCaveat Scenario.rt
                {| celEnv := Scenario.either.(celEnv); ast := Ident 1 "a";
                   name := "either" |} {[ "a" := VBool true ]}) true ∧
   DecidedAs (EvaluateCaveat Scenario.rt Scenario.either {[ "a" := VBool true ]}) true).
Proof.
  assert (Hfalse : DecidedAs (EvaluateCaveat Scenario.rt
                {| celEnv := Scenario.adultInUS.(celEnv);
                   ast := Call 2 GreaterEquals (Ident 1 "age") (Const 3 (VInt 18));
                   name := "adult_in_us" |} Scenario.age15) false).
  { eexists. split; [by vm_compute|]. split; reflexivity. }
  assert (Htrue : DecidedAs (EvaluateCaveat Scenario.rt
                {| celEnv := Scenario.either.(celEnv); ast := Ident 1 "a";
                   name := "either" |} {[ "a" := VBool true ]}) true).
  { eexists. split; [by vm_compute|]. split; reflexivity. }
  split; (split; [by vm_compute|]); (split; [assumption|]).
  - apply (proj1 (short_circuit_decides unitCost Scenario.adultInUS.(celEnv)
                    "adult_in_us" Scenario.age15 5
                    (Call 2 GreaterEquals (Ident 1 "age") (Const 3 (VInt 18)))
                    (Call 7 Equals (Ident 6 "country") (Const 8 (VString "US"))))).
    exact Hfalse.
  - apply (proj2 (short_circuit_decides unitCost Scenario.either.(celEnv)
                    "either" {[ "a" := VBool true ]} 3
                    (Ident 1 "a") (Ident 2 "b"))).
    exact Htrue.
Defined.




(** C3.  With [MaxCost = k > 0], an evaluation that needs more than [k]
    cost units returns the error of the exceeded limit: no result, so
    neither a Decided nor a Partial one; one that needs at most [k] units
    returns what the evaluation without a limit returns.  With a nil
    configuration or [MaxCost = 0] no limit is handed to the program: the
    call is [EvaluateCaveat], and it never returns the error of the
    limit. *)
Theorem cost_limit_is_a_hard_error (cost : Expr → N) (caveat : CompiledCaveat)
    (ctx : gmap string CelValue) :
  (∀ k : N, (0 < k)%N → (k < requiredCost cost caveat.(celEnv) caveat.(ast) ctx)%N →
     EvaluateCaveatWithConfig (runtime cost) caveat ctx (Some {| MaxCost := k |})
     = Error costLimitExceeded) ∧
  (∀ k : N, (0 < k)%N → (requiredCost cost caveat.(celEnv) caveat.(ast) ctx ≤ k)%N →
     EvaluateCaveatWithConfig (runtime cost) caveat ctx (Some {| MaxCost := k |})
     = EvaluateCaveat (runtime cost) caveat ctx) ∧
  (∀ config, config = None ∨ config = Some {| MaxCost := 0 |} →
     celopts config = [EvalOptions OptTrackState; EvalOptions OptPartialEval] ∧
     EvaluateCaveatWithConfig (runtime cost) caveat ctx config
     = EvaluateCaveat (runtime cost) caveat ctx ∧
     EvaluateCaveatWithConfig (runtime cost) caveat ctx config
     ≠ Error costLimitExceeded).
Proof.
  rewrite EvaluateFacts.requiredCost_costOf. split_and!.
  - intros k Hpos Hk. apply (EvaluateFacts.Evaluate_exceeded cost caveat ctx _ k); [|done].
    rewrite EvaluateFacts.limitFor_config. simpl.
    by destruct (N.ltb_spec 0 k); [|lia].
  - intros k Hpos Hk. rewrite EvaluateFacts.EvaluateCaveat_completed.
    apply EvaluateFacts.Evaluate_completed.
    rewrite EvaluateFacts.limitFor_config. simpl.
    by destruct (N.ltb_spec 0 k); [|lia].
  - intros config Hconfig.
    assert (Hopts : celopts config = [EvalOptions OptTrackState; EvalOptions OptPartialEval])
      by (by destruct Hconfig as [->| ->]).
    assert (Hsame : EvaluateCaveatWithConfig (runtime cost) caveat ctx config
                    = EvaluateCaveat (runtime cost) caveat ctx)
      by (by destruct Hconfig as [->| ->]).
    split_and!; [done..|].
    rewrite Hsame, EvaluateFacts.EvaluateCaveat_completed.
    destruct (resOf (celEnv caveat) ctx (ast caveat)) as [v|id x|msg] eqn:Hr; [done..|].
    destruct (GoStrings.Contains msg _); [done|].
    by apply EngineFacts.resOf_Failed in Hr as [->|[->|[[k ->]|(i & n & ->)]]].
Qed.

Lemma cost_limit_is_a_hard_error_witness :
  requiredCost unitCost Scenario.nested.(celEnv) Scenario.nested.(ast) {[ "x" := VInt 7 ]} = 4%N ∧
  EvaluateCaveatWithConfig Scenario.rt Scenario.nested {[ "x" := VInt 7 ]}
    (Some {| MaxCost := 1 |}) = Error costLimitExceeded ∧
  DecidedAs (EvaluateCaveatWithConfig Scenario.rt Scenario.nested {[ "x" := VInt 7 ]}
               (Some {| MaxCost := 4 |})) true ∧
  DecidedAs (EvaluateCaveatWithConfig Scenario.rt Scenario.nested {[ "x" := VInt 7 ]}
               (Some {| MaxCost := 0 |})) true.
Proof.
  destruct (cost_limit_is_a_hard_error unitCost Scenario.nested {[ "x" := VInt 7 ]})
    as (Hover & Hwithin & Hnone).
  assert (Hfree : DecidedAs (EvaluateCaveat Scenario.rt Scenario.nested
                               {[ "x" := VInt 7 ]}) true).
  { eexists. split; [by vm_compute|]. split; reflexivity. }
  split; [by vm_compute|]. split_and!.
  - apply (Hover 1%N); by vm_compute.
  - unfold Scenario.rt. rewrite (Hwithin 4%N); [exact Hfree|by vm_compute|by vm_compute].
  - unfold Scenario.rt.
    destruct (Hnone (Some {| MaxCost := 0 |})) as (_ & -> & _); [by right|exact Hfree].
Defined.




(** C4 (as amended).  Let [E], with distinct node identifiers, evaluate under
    [C1] to a Partial result with residual [R].  Under every context
    [C1 ∪ C2] that extends [C1], so also when [C2] binds exactly the missing
    names, evaluating [R] and evaluating [E] in one pass have the same
    outcome: the same Decided boolean whenever either is Decided, and
    otherwise the same partiality, missing names or error. *)
Theorem residual_agrees_with_original (cost : Expr → N) (E R : CompiledCaveat)
    (C1 C2 : gmap string CelValue) (cr : CaveatResult) :
  NoDup (ids E.(ast)) →
  EvaluateCaveat (runtime cost) E C1 = Ok cr →
  PartialValue (runtime cost) cr = Ok R →
  (∀ b : bool,
     DecidedAs (EvaluateCaveat (runtime cost) E (C1 ∪ C2)) b ↔
     DecidedAs (EvaluateCaveat (runtime cost) R (C1 ∪ C2)) b) ∧
  observe (EvaluateCaveat (runtime cost) R (C1 ∪ C2))
  = observe (EvaluateCaveat (runtime cost) E (C1 ∪ C2)).
Proof.
  intros Hnd Hcr HR.
  assert (Hres : resOf R.(celEnv) (C1 ∪ C2) R.(ast) = resOf E.(celEnv) (C1 ∪ C2) E.(ast)).
  { rewrite EvaluateFacts.EvaluateCaveat_completed in Hcr.
    destruct (resOf (celEnv E) C1 (ast E)) as [v|id x|msg];
      [| |destruct (GoStrings.Contains msg _)]; simplify_eq;
      unfold PartialValue in HR; simpl in HR; simplify_eq; simpl;
      apply (PruneFacts.prune_sound _ C1); (apply map_union_subseteq_l || done). }
  assert (Hobs : observe (EvaluateCaveat (runtime cost) R (C1 ∪ C2))
                 = observe (EvaluateCaveat (runtime cost) E (C1 ∪ C2))).
  { rewrite !EvaluateFacts.EvaluateCaveat_completed, Hres.
    destruct (resOf (celEnv E) (C1 ∪ C2) (ast E)) as [v|id x|msg]; [done..|].
    by destruct (GoStrings.Contains msg _). }
  split; [|exact Hobs].
  intros b. rewrite !DecidedAs_observe. by rewrite Hobs.
Qed.

Lemma residual_agrees_with_original_witness :
  NoDup (ids Scenario.adultInUS.(ast)) ∧
  ∃ cr R,
    EvaluateCaveat Scenario.rt Scenario.adultInUS Scenario.age20 = Ok cr ∧
    PartialValue Scenario.rt cr = Ok R ∧
    MissingVarNames cr = Ok ["country"] ∧
    dom Scenario.inUS = {[ "country" ]} ∧
    DecidedAs (EvaluateCaveat Scenario.rt Scenario.adultInUS
                 (Scenario.age20 ∪ Scenario.inUS)) true ∧
    DecidedAs (EvaluateCaveat Scenario.rt R (Scenario.age20 ∪ Scenario.inUS)) true.
Proof.
  assert (Hnd : NoDup (ids Scenario.adultInUS.(ast))).
  { apply (bool_decide_unpack _). by vm_compute. }
  split; [exact Hnd|].
  assert (Hone : DecidedAs (EvaluateCaveat Scenario.rt Scenario.adultInUS
                              (Scenario.age20 ∪ Scenario.inUS)) true).
  { eexists. split; [by vm_compute|]. split; reflexivity. }
  eexists. eexists. split; [by vm_compute|]. split; [reflexivity|].
  split; [reflexivity|]. split; [apply dom_singleton_L|]. split; [exact Hone|].
  refine (proj1 (proj1 (residual_agrees_with_original unitCost Scenario.adultInUS _
                          Scenario.age20 Scenario.inUS _ Hnd _ _) true) Hone).
  - by vm_compute.
  - reflexivity.
Defined.

(** C4 (as stated) fails: [a && b] under the empty context is Partial with
    the missing names [["a"]]; with [a] bound, the residual and the original
    are both Partial again, so neither yields a Decided boolean. *)
Lemma binding_the_missing_names_may_stay_partial :
  ∃ cr R,
    EvaluateCaveat Scenario.rt Scenario.both ∅ = Ok cr ∧
    PartialValue Scenario.rt cr = Ok R ∧
    MissingVarNames cr = Ok ["a"] ∧
    dom ({[ "a" := VBool true ]} : gmap string CelValue) = {[ "a" ]} ∧
    (∀ b, ¬ DecidedAs (EvaluateCaveat Scenario.rt R (∅ ∪ {[ "a" := VBool true ]})) b) ∧
    (∀ b, ¬ DecidedAs (EvaluateCaveat Scenario.rt Scenario.both
                         (∅ ∪ {[ "a" := VBool true ]})) b).
Proof.
  eexists. eexists. split; [by vm_compute|]. split; [reflexivity|].
  split; [reflexivity|]. split; [apply dom_singleton_L|].
  split; intros b (cr' & Hcr' & Hp & _); vm_compute in Hcr'; simplify_eq; done.
Qed.

(* ===================================================================== *)
(** * Further properties of the source *)
(* ===================================================================== *)

(** The pattern matches only texts of the shape
    [no such attribute: id: g1, names: [g2]] with non-empty groups, and the
    submatches are the text and the two groups. *)
Theorem pattern_matches_signals_only (s : string) (found : list string) :
  Regexp.FindStringSubmatch noSuchAttributeErrMessage s = Some found →
  ∃ g1 g2,
    g1 ≠ "" ∧ g2 ≠ "" ∧
    s = "no such attribute: id: " +:+ g1 +:+ ", names: [" +:+ g2 +:+ "]" ∧
    found = [s; g1; g2].
Proof.
  unfold Regexp.FindStringSubmatch.
  destruct (Regexp.matchItems _ s) as [caps|] eqn:Hm; [|done].
  apply TextFacts.matchItems_sound in Hm as (g1 & g2 & -> & Hg1 & Hg2 & Hs).
  intros [= <-]. by exists g1, g2.
Qed.

Lemma pattern_matches_signals_only_witness :
  ∃ g1 g2,
    g1 ≠ "" ∧ g2 ≠ "" ∧
    "no such attribute: id: 3, names: [a.b.x a.x x]"
    = "no such attribute: id: " +:+ g1 +:+ ", names: [" +:+ g2 +:+ "]" ∧
    ["no such attribute: id: 3, names: [a.b.x a.x x]"; "3"; "a.b.x a.x x"]
    = ["no such attribute: id: 3, names: [a.b.x a.x x]"; g1; g2].
Proof.
  apply (pattern_matches_signals_only
           "no such attribute: id: 3, names: [a.b.x a.x x]"
           ["no such attribute: id: 3, names: [a.b.x a.x x]"; "3"; "a.b.x a.x x"]).
  by vm_compute.
Defined.

(** Every result of [EvaluateCaveatWithConfig] holds the context the call
    was given, whole, and the caveat it was given as its parent; a Decided
    result has no missing names. *)
Theorem results_keep_context_and_parent (rt : CelRuntime) (caveat : CompiledCaveat)
    (ctx : gmap string CelValue) (config : option EvaluationConfig) (cr : CaveatResult) :
  EvaluateCaveatWithConfig rt caveat ctx config = Ok cr →
  ContextValues cr = ctx ∧ cr.(parentCaveat) = caveat ∧
  (IsPartial cr = false → cr.(missingVarNames) = []).
Proof.
  unfold EvaluateCaveatWithConfig.
  destruct (env_Program rt _ _ _) as [prg|]; [|done].
  destruct (cel_PartialVars rt ctx) as [pvars|]; [|done].
  destruct (prg_Eval rt prg pvars) as [[v d] [err|]].
  - destruct (_ && _); [|done].
    destruct (Regexp.FindStringSubmatch _ _); intros; by simplify_eq.
  - intros; by simplify_eq.
Qed.

Lemma results_keep_context_and_parent_witness :
  ∃ cr, EvaluateCaveatWithConfig Scenario.rt Scenario.adultInUS Scenario.age20 None = Ok cr ∧
        ContextValues cr = Scenario.age20 ∧ cr.(parentCaveat) = Scenario.adultInUS.
Proof.
  eexists. split; [by vm_compute|].
  destruct (results_keep_context_and_parent Scenario.rt Scenario.adultInUS Scenario.age20
              None Scenario.blockedOnCountry) as (Hctx & Hparent & _); [by vm_compute|].
  split; [exact Hctx|exact Hparent].
Defined.

(** An error of [env.Program] or of [cel.PartialVars] is the error of the
    call. *)
Theorem planning_and_binding_errors_are_returned (rt : CelRuntime)
    (caveat : CompiledCaveat) (ctx : gmap string CelValue)
    (config : option EvaluationConfig) (msg : string) :
  (rt.(env_Program) caveat.(celEnv) caveat.(ast) (celopts config) = Error msg →
   EvaluateCaveatWithConfig rt caveat ctx config = Error msg) ∧
  (∀ prg,
     rt.(env_Program) caveat.(celEnv) caveat.(ast) (celopts config) = Ok prg →
     rt.(cel_PartialVars) ctx = Error msg →
     EvaluateCaveatWithConfig rt caveat ctx config = Error msg).
Proof.
  unfold EvaluateCaveatWithConfig. split.
  - by intros ->.
  - by intros prg -> ->.
Qed.

Lemma planning_and_binding_errors_are_returned_witness :
  EvaluateCaveatWithConfig (Scenario.refusing "no such overload") Scenario.adultInUS
    Scenario.age20 None = Error "no such overload".
Proof.
  apply (proj1 (planning_and_binding_errors_are_returned
                  (Scenario.refusing "no such overload") Scenario.adultInUS
                  Scenario.age20 None "no such overload")).
  reflexivity.
Defined.

(** The program is planned with state tracking and partial evaluation, and
    with a cost limit exactly when the configuration is not nil and its
    [MaxCost] is positive; the limit is then [MaxCost]. *)
Theorem cost_limit_option (config : option EvaluationConfig) (k : N) :
  (CostLimit k ∈ celopts config ↔
   ∃ c, config = Some c ∧ c.(MaxCost) = k ∧ (0 < k)%N) ∧
  EvalOptions OptTrackState ∈ celopts config ∧
  EvalOptions OptPartialEval ∈ celopts config.
Proof.
  unfold celopts. destruct config as [[m]|]; simpl.
  - destruct (N.ltb_spec 0 m) as [Hm|Hm]; simpl.
    + split_and!; [|repeat constructor..]. split.
      * intros H. repeat (apply elem_of_cons in H as [H|H]; [try done|]).
        -- injection H as ->. eauto.
        -- by apply elem_of_nil in H.
      * intros (c & [= <-] & <- & _). simpl. repeat constructor.
    + split_and!; [|repeat constructor..]. split.
      * intros H. repeat (apply elem_of_cons in H as [H|H]; [done|]).
        by apply elem_of_nil in H.
      * intros (c & [= <-] & Hk & Hpos). simpl in Hk. lia.
  - split_and!; [|repeat constructor..]. split.
    + intros H. repeat (apply elem_of_cons in H as [H|H]; [done|]).
      by apply elem_of_nil in H.
    + by intros (c & ? & _).
Qed.

(* ===================================================================== *)
(** * The scenarios of the specification on the engine *)
(* ===================================================================== *)

Section Scenarios.
Import Scenario.

(** [age >= 18 && country == "US"] under [{age: 20, country: "US"}]. *)
Example scenario_fully_bound :
  DecidedAs (EvaluateCaveat rt adultInUS (age20 ∪ inUS)) true.
Proof. eexists. split; [by vm_compute|]. split; reflexivity. Qed.

(** Under [{age: 15}]: the right operand is not needed. *)
Example scenario_short_circuit :
  DecidedAs (EvaluateCaveat rt adultInUS age15) false.
Proof. eexists. split; [by vm_compute|]. split; reflexivity. Qed.

(** Under [{age: 20}]: Partial, and the result is [blockedOnCountry]. *)
Example scenario_partial :
  EvaluateCaveat rt adultInUS age20 = Ok blockedOnCountry.
Proof. by vm_compute. Qed.

(** [a || b] under [{a: true}]. *)
Example scenario_or :
  DecidedAs (EvaluateCaveat rt either {[ "a" := VBool true ]}) true.
Proof. eexists. split; [by vm_compute|]. split; reflexivity. Qed.

(** Nested arithmetic under [maxCost = 1] with the full context. *)
Example scenario_cost :
  EvaluateCaveatWithConfig rt nested {[ "x" := VInt 7 ]} (Some {| MaxCost := 1 |})
  = Error costLimitExceeded.
Proof. by vm_compute. Qed.

(** A reference to a name that is neither declared nor bound is an error of
    the call, not a Partial result. *)
Example scenario_undeclared :
  EvaluateCaveat rt {| celEnv := ∅; ast := Ident 1 "nobody"; name := "undeclared" |} ∅
  = Error undeclaredReference.
Proof. by vm_compute. Qed.

(** The pattern is greedy in its first group, does not match an empty list
    of names, and does not match across a newline. *)
Example pattern_greedy :
  Regexp.FindStringSubmatch noSuchAttributeErrMessage
    "no such attribute: id: 3, names: [a, names: [b c]]"
  = Some ["no such attribute: id: 3, names: [a, names: [b c]]"; "3, names: [a"; "b c]"].
Proof. by vm_compute. Qed.

Example pattern_empty_names :
  Regexp.FindStringSubmatch noSuchAttributeErrMessage
    "no such attribute: id: 3, names: []" = None.
Proof. by vm_compute. Qed.

Example pattern_other_text :
  GoStrings.Contains "no such attribute(s): country" "no such attribute" = true ∧
  Regexp.FindStringSubmatch noSuchAttributeErrMessage "no such attribute(s): country"
  = None.
Proof. by vm_compute. Qed.

Example split_on_spaces :
  GoStrings.Split "a b  c" " " = ["a"; "b"; ""; "c"] ∧ GoStrings.Split "" " " = [""].
Proof. by vm_compute. Qed.

End Scenarios.

(* ===================================================================== *)
(** * The names of a Partial result *)
(* ===================================================================== *)

Module NamesFacts.
Import Text TextFacts Names.

(** ** The split on a one-byte separator *)

Section SplitFacts.
Variable c : ascii.

Lemma HasPrefix_byte a s :
  GoStrings.HasPrefix (String a s) (String c "") = Ascii.eqb c a.
Proof.
  unfold GoStrings.HasPrefix. simpl.
  destruct (Ascii.eqb c a); [by destruct s|done].
Qed.

Lemma splitFrom_byte_cons cur a s :
  GoStrings.splitFrom (String c "") 0 cur (String a s) =
  if Ascii.eqb c a
  then cur :: GoStrings.splitFrom (String c "") 0 "" s
  else GoStrings.splitFrom (String c "") 0 (cur +:+ String a "") s.
Proof.
  change (GoStrings.splitFrom (String c "") 0 cur (String a s)) with
    (if GoStrings.HasPrefix (String a s) (String c "")
     then cur :: GoStrings.splitFrom (String c "") 0 "" s
     else GoStrings.splitFrom (String c "") 0 (cur +:+ String a "") s).
  by rewrite HasPrefix_byte.
Qed.

Lemma splitFrom_nonempty cur s :
  GoStrings.splitFrom (String c "") 0 cur s ≠ [].
Proof.
  revert cur. induction s as [|a s IH]; intros cur; [done|].
  rewrite splitFrom_byte_cons. destruct (Ascii.eqb c a); [done|apply IH].
Qed.

Lemma concat_cons sep x l :
  l ≠ [] → String.concat sep (x :: l) = x +:+ sep +:+ String.concat sep l.
Proof. by destruct l. Qed.

(** Joined with the separator, the pieces give the text back. *)
Lemma splitFrom_join cur s :
  Join (GoStrings.splitFrom (String c "") 0 cur s) (String c "") = cur +:+ s.
Proof.
  unfold Join. revert cur. induction s as [|a s IH]; intros cur.
  - simpl. by rewrite app_empty_r.
  - rewrite splitFrom_byte_cons. destruct (Ascii.eqb_spec c a) as [<-|Hne].
    + rewrite concat_cons by apply splitFrom_nonempty. by rewrite IH.
    + rewrite IH. by rewrite app_assoc_s.
Qed.

(** No piece holds the separator. *)
Lemma splitFrom_pieces cur s :
  allChars (notChar c) cur = true →
  Forall (fun x => allChars (notChar c) x = true)
         (GoStrings.splitFrom (String c "") 0 cur s).
Proof.
  revert cur. induction s as [|a s IH]; intros cur Hcur.
  - by constructor.
  - rewrite splitFrom_byte_cons. destruct (Ascii.eqb c a) eqn:Ha.
    + constructor; [done|]. by apply IH.
    + apply IH. rewrite allChars_app, Hcur. simpl. unfold notChar.
      by rewrite Ascii.eqb_sym, Ha.
Qed.

(** There is one piece more than there are separators. *)
Lemma splitFrom_length cur s :
  length (GoStrings.splitFrom (String c "") 0 cur s) = S (count c s).
Proof.
  revert cur. induction s as [|a s IH]; intros cur; [done|].
  rewrite splitFrom_byte_cons. simpl. rewrite (Ascii.eqb_sym a c).
  destruct (Ascii.eqb c a); simpl; by rewrite IH.
Qed.

End SplitFacts.

(** ** The capturing group: completeness and greed *)

Section GroupFacts.
Import Regexp.
Variable k : string → option (list string).

(** The group fails exactly when the rest of the pattern fails after every
    piece it could take. *)
Lemma group_None taken s :
  group k taken s = None ↔
  ∀ g r, s = g +:+ r → g ≠ "" → oneLine g = true → k r = None.
Proof.
  revert taken. induction s as [|a s IH]; intros taken.
  - split; [|done]. intros _ g r Hs Hg. by destruct g.
  - simpl. destruct (Ascii.eqb a newline) eqn:Ha.
    + split; [|done]. intros _ g r Hs Hg Hone. destruct g as [|b g]; [done|].
      rewrite app_cons in Hs. injection Hs as <- _.
      unfold oneLine in Hone. simpl in Hone. unfold notChar in Hone at 1.
      by rewrite Ha in Hone.
    + destruct (group k (taken +:+ String a "") s) as [caps|] eqn:Hg.
      * split; [done|]. intros Hall.
        assert (group k (taken +:+ String a "") s = None) as Hnone; [|congruence].
        apply IH. intros g r -> Hne Hone. apply (Hall (String a g) r); [done..|].
        unfold oneLine in *. simpl. unfold notChar at 1. by rewrite Ha.
      * destruct (k s) as [caps|] eqn:Hk.
        -- split; [done|]. intros Hall.
           rewrite (Hall (String a "") s) in Hk; [done..|].
           unfold oneLine. simpl. unfold notChar. by rewrite Ha.
        -- split; [|done]. intros _ g r Hs Hne Hone.
           destruct g as [|b g]; [done|].
           rewrite app_cons in Hs. injection Hs as <- ->.
           destruct g as [|b' g]; [exact Hk|].
           apply (proj1 (IH _) Hg (String b' g) r); [done..|].
           unfold oneLine in *. simpl in Hone.
           by apply andb_true_iff in Hone as [_ Hone].
Qed.

(** A successful group took the longest piece after which the rest of the
    pattern matches. *)
Lemma group_greedy taken s caps :
  group k taken s = Some caps →
  ∃ g r caps',
    s = g +:+ r ∧ g ≠ "" ∧ oneLine g = true ∧
    k r = Some caps' ∧ caps = (taken +:+ g) :: caps' ∧
    ∀ g' r', r = g' +:+ r' → g' ≠ "" → oneLine g' = true → k r' = None.
Proof.
  revert taken. induction s as [|a s IH]; intros taken; simpl; [done|].
  destruct (Ascii.eqb a newline) eqn:Ha; [done|].
  destruct (group k (taken +:+ String a "") s) as [caps0|] eqn:Hg.
  - intros [= <-].
    destruct (IH _ Hg) as (g & r & caps' & -> & Hne & Hone & Hk & -> & Hlong).
    exists (String a g), r, caps'. split_and!; try done.
    + unfold oneLine in *. simpl. unfold notChar at 1. by rewrite Ha.
    + by rewrite app_assoc_s.
  - destruct (k s) as [caps'|] eqn:Hk; [|done]. intros [= <-].
    exists (String a ""), s, caps'. split_and!; try done.
    + unfold oneLine. simpl. unfold notChar. by rewrite Ha.
    + exact (proj1 (group_None _ _) Hg).
Qed.

End GroupFacts.

(** ** The pattern of the blocking signal *)

Section PatternFacts.
Import Regexp.

Lemma closing_matches g2 :
  g2 ≠ "" → oneLine g2 = true →
  matchItems [AnyPlus; Lit "]"] (g2 +:+ "]") ≠ None.
Proof.
  intros Hne Hone Hnone. rewrite matchItems_AnyPlus in Hnone.
  by pose proof (proj1 (group_None _ _ _) Hnone g2 "]" eq_refl Hne Hone).
Qed.

Lemma names_part_matches g2 :
  g2 ≠ "" → oneLine g2 = true →
  matchItems [Lit ", names: ["; AnyPlus; Lit "]"] (", names: [" +:+ g2 +:+ "]") ≠ None.
Proof.
  intros Hne Hone. rewrite matchItems_Lit, CutPrefix_app. by apply closing_matches.
Qed.

(** Every text of the shape matches. *)
Lemma pattern_complete g1 g2 :
  g1 ≠ "" → g2 ≠ "" → oneLine g1 = true → oneLine g2 = true →
  matchItems noSuchAttributeErrMessage
    ("no such attribute: id: " +:+ g1 +:+ ", names: [" +:+ g2 +:+ "]") ≠ None.
Proof.
  intros Hg1 Hg2 H1 H2 Hnone. unfold noSuchAttributeErrMessage in Hnone.
  rewrite matchItems_Lit, CutPrefix_app, matchItems_AnyPlus in Hnone.
  pose proof (proj1 (group_None _ _ _) Hnone g1 _ eq_refl Hg1 H1) as Hk.
  by apply (names_part_matches g2).
Qed.

(** What a match says of the text, the groups being the ones [group] took:
    the first is the longest after which the rest of the pattern matches. *)
Lemma pattern_greedy_sound s caps :
  matchItems noSuchAttributeErrMessage s = Some caps →
  ∃ g1 g2,
    caps = [g1; g2] ∧ g1 ≠ "" ∧ g2 ≠ "" ∧ oneLine g1 = true ∧ oneLine g2 = true ∧
    s = "no such attribute: id: " +:+ g1 +:+ ", names: [" +:+ g2 +:+ "]" ∧
    ∀ g' r', ", names: [" +:+ g2 +:+ "]" = g' +:+ r' → g' ≠ "" → oneLine g' = true →
             matchItems [Lit ", names: ["; AnyPlus; Lit "]"] r' = None.
Proof.
  unfold noSuchAttributeErrMessage. rewrite matchItems_Lit.
  destruct (GoStrings.CutPrefix _ s) as [s1|] eqn:H1; [|done].
  apply CutPrefix_Some in H1 as ->. rewrite matchItems_AnyPlus.
  intros (g1 & r1 & caps1 & -> & Hg1 & Hone1 & Hk1 & -> & Hlong)%group_greedy.
  rewrite matchItems_Lit in Hk1.
  destruct (GoStrings.CutPrefix _ r1) as [s2|] eqn:H2; [|done].
  apply CutPrefix_Some in H2 as ->. rewrite matchItems_AnyPlus in Hk1.
  apply group_greedy in Hk1 as (g2 & r2 & caps2 & -> & Hg2 & Hone2 & Hk2 & -> & _).
  rewrite matchItems_Lit in Hk2.
  destruct (GoStrings.CutPrefix _ r2) as [s3|] eqn:H3; [|done].
  apply CutPrefix_Some in H3 as ->.
  destruct s3; [|done]. simpl in Hk2. simplify_eq.
  exists g1, g2. rewrite !app_nil_l. split_and!; done.
Qed.

(** Two ways to cut one text: the longer left part extends the shorter. *)
Lemma app_cut a b c d :
  a +:+ b = c +:+ d → (String.length c < String.length a)%nat →
  ∃ e, e ≠ "" ∧ a = c +:+ e ∧ d = e +:+ b.
Proof.
  revert a. induction c as [|x c IH]; intros a Heq Hlen.
  - exists a. rewrite !app_nil_l in *. split_and!; [|done..].
    intros ->. simpl in Hlen. lia.
  - destruct a as [|y a]; [simpl in Hlen; lia|].
    rewrite !app_cons in Heq. injection Heq as -> Heq.
    destruct (IH a Heq) as (e & Hne & -> & ->); [simpl in Hlen; lia|].
    exists e. by rewrite app_cons.
Qed.

Lemma oneLine_app a b : oneLine (a +:+ b) = oneLine a && oneLine b.
Proof. apply allChars_app. Qed.

End PatternFacts.
End NamesFacts.

(** The pattern matches exactly the one-line texts of the shape
    [no such attribute: id: g1, names: [g2]] with non-empty [g1] and [g2]:
    an empty list of names, a text going on after the bracket, and a text
    with a newline do not match. *)
Theorem pattern_matches_exactly (s : string) :
  is_Some (Regexp.FindStringSubmatch noSuchAttributeErrMessage s) ↔
  ∃ g1 g2,
    g1 ≠ "" ∧ g2 ≠ "" ∧ Names.oneLine g1 = true ∧ Names.oneLine g2 = true ∧
    s = "no such attribute: id: " +:+ g1 +:+ ", names: [" +:+ g2 +:+ "]".
Proof.
  unfold Regexp.FindStringSubmatch. split.
  - destruct (Regexp.matchItems _ s) as [caps|] eqn:Hm; [|by intros [? ?]].
    intros _.
    apply NamesFacts.pattern_greedy_sound in Hm
      as (g1 & g2 & _ & Hg1 & Hg2 & H1 & H2 & Hs & _).
    by exists g1, g2.
  - intros (g1 & g2 & Hg1 & Hg2 & H1 & H2 & ->).
    pose proof (NamesFacts.pattern_complete g1 g2 Hg1 Hg2 H1 H2) as Hm.
    destruct (Regexp.matchItems _ _); [by eexists|done].
Qed.

(** Of all the ways to read a text as
    [no such attribute: id: h1, names: [h2]], the pattern takes the one with
    the longest [h1]: the names are what follows the last [, names: [] that
    leaves a non-empty list. *)
Theorem pattern_first_group_is_longest (s : string) (found : list string) :
  Regexp.FindStringSubmatch noSuchAttributeErrMessage s = Some found →
  ∃ g1 g2,
    found = [s; g1; g2] ∧
    s = "no such attribute: id: " +:+ g1 +:+ ", names: [" +:+ g2 +:+ "]" ∧
    ∀ h1 h2,
      h2 ≠ "" → Names.oneLine h1 = true → Names.oneLine h2 = true →
      s = "no such attribute: id: " +:+ h1 +:+ ", names: [" +:+ h2 +:+ "]" →
      (String.length h1 ≤ String.length g1)%nat.
Proof.
  unfold Regexp.FindStringSubmatch.
  destruct (Regexp.matchItems _ s) as [caps|] eqn:Hm; [|done].
  apply NamesFacts.pattern_greedy_sound in Hm
    as (g1 & g2 & -> & Hg1 & Hg2 & H1 & H2 & Hs & Hlong).
  intros [= <-]. exists g1, g2. split_and!; [done..|].
  intros h1 h2 Hh2 Hone1 Hone2 Hs'.
  destruct (Nat.le_gt_cases (String.length h1) (String.length g1)) as [|Hlt]; [done|].
  rewrite Hs in Hs'. apply (inj (String.app _)) in Hs'. symmetry in Hs'.
  apply NamesFacts.app_cut in Hs' as (e & He & -> & Hr); [|done].
  rewrite NamesFacts.oneLine_app in Hone1. apply andb_true_iff in Hone1 as [_ Hone].
  pose proof (Hlong e _ Hr He Hone) as Hnone.
  by destruct (NamesFacts.names_part_matches h2 Hh2 Hone2).
Qed.

Lemma pattern_first_group_is_longest_witness :
  ∃ g1 g2,
    ["no such attribute: id: 3, names: [a, names: [b c]]"; "3, names: [a"; "b c]"]
    = ["no such attribute: id: 3, names: [a, names: [b c]]"; g1; g2] ∧
    "no such attribute: id: 3, names: [a, names: [b c]]"
    = "no such attribute: id: " +:+ g1 +:+ ", names: [" +:+ g2 +:+ "]" ∧
    ∀ h1 h2,
      h2 ≠ "" → Names.oneLine h1 = true → Names.oneLine h2 = true →
      "no such attribute: id: 3, names: [a, names: [b c]]"
      = "no such attribute: id: " +:+ h1 +:+ ", names: [" +:+ h2 +:+ "]" →
      (String.length h1 ≤ String.length g1)%nat.
Proof.
  apply (pattern_first_group_is_longest
           "no such attribute: id: 3, names: [a, names: [b c]]"
           ["no such attribute: id: 3, names: [a, names: [b c]]"; "3, names: [a"; "b c]"]).
  by vm_compute.
Defined.

(* ===================================================================== *)
(** * From the evaluator's answer to the result *)
(* ===================================================================== *)

Module AnswerFacts.
Import Text TextFacts Names NamesFacts.

(** [strings.Contains]: the text holds the other somewhere. *)
Lemma Contains_iff s sub :
  GoStrings.Contains s sub = true ↔ ∃ pre post, s = pre +:+ sub +:+ post.
Proof.
  split.
  - induction s as [|a s IH]; simpl.
    + rewrite orb_false_r. unfold GoStrings.HasPrefix.
      destruct (GoStrings.CutPrefix sub "") as [r|] eqn:Hc; [|done]. intros _.
      apply CutPrefix_Some in Hc. by exists "", r.
    + unfold GoStrings.HasPrefix.
      destruct (GoStrings.CutPrefix sub (String a s)) as [r|] eqn:Hc.
      * intros _. apply CutPrefix_Some in Hc. by exists "", r.
      * simpl. intros (pre & post & ->)%IH. by exists (String a pre), post.
  - intros (pre & post & ->). induction pre as [|a pre IH].
    + rewrite app_nil_l. apply Contains_prefix.
    + rewrite app_cons. simpl. rewrite IH. apply orb_true_r.
Qed.

Lemma HasPrefix_of_match s found :
  Regexp.FindStringSubmatch noSuchAttributeErrMessage s = Some found →
  GoStrings.HasPrefix s "no such attribute: id: " = true ∧ oneLine s = true ∧
  GoStrings.Contains s "no such attribute" = true.
Proof.
  unfold Regexp.FindStringSubmatch.
  destruct (Regexp.matchItems _ s) as [caps|] eqn:Hm; [|done]. intros _.
  apply pattern_greedy_sound in Hm as (g1 & g2 & _ & _ & _ & H1 & H2 & -> & _).
  split_and!.
  - unfold GoStrings.HasPrefix. by rewrite CutPrefix_app.
  - rewrite !oneLine_app, H1, H2. reflexivity.
  - change ("no such attribute: id: " +:+ g1 +:+ ", names: [" +:+ g2 +:+ "]") with
      ("no such attribute" +:+ (": id: " +:+ g1 +:+ ", names: [" +:+ g2 +:+ "]")).
    apply Contains_prefix.
Qed.

End AnswerFacts.

(** Whenever the error text matches the pattern, the names of the result
    are a non-empty list, none of them holds a space, there is one more of
    them than there are spaces in the bracketed text, and joined with spaces
    they give that text back. *)
Theorem names_join_back_to_the_bracketed_text (rt : CelRuntime)
    (caveat : CompiledCaveat) (ctx : gmap string CelValue)
    (config : option EvaluationConfig) (prg : Prg) (pvars : Activation)
    (v : option Val) (d : EvalDetails) (msg : string) (cr : CaveatResult)
    (g1 g2 : string) :
  rt.(env_Program) caveat.(celEnv) caveat.(ast) (celopts config) = Ok prg →
  rt.(cel_PartialVars) ctx = Ok pvars →
  rt.(prg_Eval) prg pvars = (v, d, Some msg) →
  EvaluateCaveatWithConfig rt caveat ctx config = Ok cr →
  Regexp.FindStringSubmatch noSuchAttributeErrMessage msg = Some [msg; g1; g2] →
  cr.(missingVarNames) ≠ [] ∧
  Names.Join cr.(missingVarNames) " " = g2 ∧
  Forall (fun x => Text.allChars (Text.notChar " ") x = true) cr.(missingVarNames) ∧
  length cr.(missingVarNames) = S (Names.count " " g2).
Proof.
  intros Hprg Hvars Hrun Hcr Hfound.
  rewrite (Evaluate_answer rt caveat ctx config prg pvars Hprg Hvars v d _ Hrun) in Hcr.
  destruct (_ && _); [|done]. simplify_eq. simpl.
  unfold namesFromError. rewrite Hfound. simpl. unfold GoStrings.Split.
  split_and!.
  - apply NamesFacts.splitFrom_nonempty.
  - by rewrite NamesFacts.splitFrom_join.
  - by apply NamesFacts.splitFrom_pieces.
  - apply NamesFacts.splitFrom_length.
Qed.

Lemma names_join_back_to_the_bracketed_text_witness :
  ∃ cr,
    EvaluateCaveatWithConfig
      (Scenario.answering (Some (ErrVal "no such attribute: id: 3, names: [a.b.x  x]"))
                          (Some "no such attribute: id: 3, names: [a.b.x  x]"))
      Scenario.adultInUS Scenario.age20 None = Ok cr ∧
    cr.(missingVarNames) = ["a.b.x"; ""; "x"] ∧
    Names.Join cr.(missingVarNames) " " = "a.b.x  x" ∧
    length cr.(missingVarNames) = S (Names.count " " "a.b.x  x").
Proof.
  pose (msg := "no such attribute: id: 3, names: [a.b.x  x]").
  eexists. split; [by vm_compute|]. split; [reflexivity|].
  lazymatch goal with
  | |- Names.Join (missingVarNames ?c) _ = _ ∧ _ =>
      destruct (names_join_back_to_the_bracketed_text
                  (Scenario.answering (Some (ErrVal msg)) (Some msg))
                  Scenario.adultInUS Scenario.age20 None
                  {| prgEnv := Scenario.adultInUS.(celEnv);
                     prgAst := Scenario.adultInUS.(ast);
                     prgOpts := celopts None |}
                  Scenario.age20 (Some (ErrVal msg)) {| State := []; ActualCost := 0 |}
                  msg c "3" "a.b.x  x" eq_refl eq_refl eq_refl)
        as (_ & Hjoin & _ & Hlen); [by vm_compute|by vm_compute|]
  end.
  split; [exact Hjoin|exact Hlen].
Defined.

(** The signal of a missing attribute as the evaluator words it, with a
    non-nil value: when the identifier and the bracketed list are non-empty
    and one-line, and the list holds no comma, the result is Partial and its
    names are exactly the pieces of the list between spaces. *)
Theorem signal_gives_its_names (rt : CelRuntime)
    (caveat : CompiledCaveat) (ctx : gmap string CelValue)
    (config : option EvaluationConfig) (prg : Prg) (pvars : Activation)
    (v : Val) (d : EvalDetails) (id names : string) :
  rt.(env_Program) caveat.(celEnv) caveat.(ast) (celopts config) = Ok prg →
  rt.(cel_PartialVars) ctx = Ok pvars →
  rt.(prg_Eval) prg pvars =
    (Some v, d,
     Some ("no such attribute: id: " +:+ id +:+ ", names: [" +:+ names +:+ "]")) →
  id ≠ "" → Names.oneLine id = true →
  names ≠ "" → Names.oneLine names = true →
  Text.allChars (Text.notChar ",") names = true →
  ∃ cr,
    EvaluateCaveatWithConfig rt caveat ctx config = Ok cr ∧
    IsPartial cr = true ∧
    MissingVarNames cr = Ok (GoStrings.Split names " ").
Proof.
  intros Hprg Hvars Hrun Hid Hid1 Hn Hn1 Hnc.
  rewrite (Evaluate_answer rt caveat ctx config prg pvars Hprg Hvars _ d _ Hrun).
  change ("no such attribute: id: " +:+ id +:+ ", names: [" +:+ names +:+ "]") with
    ("no such attribute" +:+ (": id: " +:+ id +:+ ", names: [" +:+ names +:+ "]")) at 1.
  rewrite TextFacts.Contains_prefix, bool_decide_true by done. simpl.
  eexists. split; [reflexivity|]. split; [reflexivity|].
  unfold MissingVarNames. simpl. unfold namesFromError, Regexp.FindStringSubmatch.
  by rewrite TextFacts.matchItems_signal.
Qed.

Lemma signal_gives_its_names_witness :
  ∃ cr,
    EvaluateCaveatWithConfig
      (Scenario.answering (Some (ErrVal "no such attribute: id: 3, names: [a.b.x a.x x]"))
                          (Some "no such attribute: id: 3, names: [a.b.x a.x x]"))
      Scenario.adultInUS Scenario.age20 None = Ok cr ∧
    IsPartial cr = true ∧
    MissingVarNames cr = Ok ["a.b.x"; "a.x"; "x"].
Proof.
  pose (msg := "no such attribute: id: 3, names: [a.b.x a.x x]").
  apply (signal_gives_its_names
           (Scenario.answering (Some (ErrVal msg)) (Some msg))
           Scenario.adultInUS Scenario.age20 None
           {| prgEnv := Scenario.adultInUS.(celEnv);
              prgAst := Scenario.adultInUS.(ast);
              prgOpts := celopts None |}
           Scenario.age20 (ErrVal msg) {| State := []; ActualCost := 0 |}
           "3" "a.b.x a.x x"); by vm_compute.
Defined.

(** An error counts as missing context wherever its text holds the phrase
    [no such attribute], not only at its start: with a non-nil value the
    result is Partial exactly when the text is [pre ++ "no such attribute" ++
    post] for some [pre] and [post].  When such a text does not start with
    [no such attribute: id: ], or holds a newline, the Partial result has no
    names. *)
Theorem phrase_anywhere_is_partial (rt : CelRuntime)
    (caveat : CompiledCaveat) (ctx : gmap string CelValue)
    (config : option EvaluationConfig) (prg : Prg) (pvars : Activation)
    (v : option Val) (d : EvalDetails) (msg : string) :
  rt.(env_Program) caveat.(celEnv) caveat.(ast) (celopts config) = Ok prg →
  rt.(cel_PartialVars) ctx = Ok pvars →
  rt.(prg_Eval) prg pvars = (v, d, Some msg) →
  ((∃ cr, EvaluateCaveatWithConfig rt caveat ctx config = Ok cr ∧ IsPartial cr = true) ↔
   (v ≠ None ∧ ∃ pre post, msg = pre +:+ "no such attribute" +:+ post)) ∧
  (∀ cr, EvaluateCaveatWithConfig rt caveat ctx config = Ok cr →
     GoStrings.HasPrefix msg "no such attribute: id: " = false ∨
     Names.oneLine msg = false →
     MissingVarNames cr = Ok []).
Proof.
  intros Hprg Hvars Hrun.
  pose proof (Evaluate_answer rt caveat ctx config prg pvars Hprg Hvars v d _ Hrun) as Hev.
  split.
  - rewrite <- AnswerFacts.Contains_iff, Hev. split.
    + intros (cr & Hcr & _).
      destruct (bool_decide (v ≠ None)) eqn:Hv; simpl in Hcr; [|done].
      destruct (GoStrings.Contains msg _) eqn:Hc; [|done].
      by apply bool_decide_eq_true in Hv.
    + intros [Hv Hc]. rewrite Hc, bool_decide_true by done.
      eexists. split; reflexivity.
  - intros cr Hcr Hshape. rewrite Hev in Hcr.
    destruct (_ && _); [|done]. simplify_eq.
    unfold MissingVarNames. simpl. unfold namesFromError.
    destruct (Regexp.FindStringSubmatch _ msg) as [found|] eqn:Hfound; [|done].
    apply AnswerFacts.HasPrefix_of_match in Hfound as (Hp & Hone & _).
    destruct Hshape; congruence.
Qed.

Lemma phrase_anywhere_is_partial_witness :
  ∃ cr,
    EvaluateCaveatWithConfig
      (Scenario.answering (Some (ErrVal "no such key: no such attribute"))
                          (Some "no such key: no such attribute"))
      Scenario.adultInUS (Scenario.age20 ∪ Scenario.inUS) None = Ok cr ∧
    IsPartial cr = true ∧ MissingVarNames cr = Ok [].
Proof.
  pose (msg := "no such key: no such attribute").
  destruct (phrase_anywhere_is_partial
              (Scenario.answering (Some (ErrVal msg)) (Some msg))
              Scenario.adultInUS (Scenario.age20 ∪ Scenario.inUS) None
              {| prgEnv := Scenario.adultInUS.(celEnv);
                 prgAst := Scenario.adultInUS.(ast);
                 prgOpts := celopts None |}
              (Scenario.age20 ∪ Scenario.inUS) (Some (ErrVal msg))
              {| State := []; ActualCost := 0 |} msg eq_refl eq_refl eq_refl)
    as [Hiff Hnames].
  destruct (proj2 Hiff) as (cr & Hcr & Hp).
  { split; [done|]. by exists "no such key: ", "". }
  exists cr. split; [exact Hcr|]. split; [exact Hp|].
  apply (Hnames cr Hcr). left. by vm_compute.
Defined.

(** A result carries the value and the details of the evaluator as they
    came; it is Decided exactly when the evaluator returned no error, even
    with a nil value; and an error of the call is the evaluator's own text,
    unchanged. *)
Theorem results_carry_the_answer (rt : CelRuntime)
    (caveat : CompiledCaveat) (ctx : gmap string CelValue)
    (config : option EvaluationConfig) (prg : Prg) (pvars : Activation)
    (v : option Val) (d : EvalDetails) (err : option string) :
  rt.(env_Program) caveat.(celEnv) caveat.(ast) (celopts config) = Ok prg →
  rt.(cel_PartialVars) ctx = Ok pvars →
  rt.(prg_Eval) prg pvars = (v, d, err) →
  (∀ cr, EvaluateCaveatWithConfig rt caveat ctx config = Ok cr →
     cr.(val) = v ∧ cr.(details) = d ∧ (IsPartial cr = false ↔ err = None)) ∧
  (∀ msg, EvaluateCaveatWithConfig rt caveat ctx config = Error msg → err = Some msg) ∧
  (err = None →
   ∃ cr, EvaluateCaveatWithConfig rt caveat ctx config = Ok cr ∧ IsPartial cr = false).
Proof.
  intros Hprg Hvars Hrun.
  rewrite (Evaluate_answer rt caveat ctx config prg pvars Hprg Hvars v d err Hrun).
  destruct err as [msg|].
  - split_and!; [| |done].
    + intros cr Hcr. destruct (_ && _); [|done]. by simplify_eq.
    + intros msg' Hcr. destruct (_ && _); [done|]. by simplify_eq.
  - split_and!; [| done |].
    + intros cr Hcr. by simplify_eq.
    + intros _. eexists. split; reflexivity.
Qed.

Lemma results_carry_the_answer_witness :
  ∃ cr,
    EvaluateCaveatWithConfig (Scenario.answering None None)
      Scenario.adultInUS Scenario.age20 None = Ok cr ∧
    IsPartial cr = false ∧ cr.(val) = None ∧ Value cr = Panics.
Proof.
  destruct (results_carry_the_answer (Scenario.answering None None)
              Scenario.adultInUS Scenario.age20 None
              {| prgEnv := Scenario.adultInUS.(celEnv);
                 prgAst := Scenario.adultInUS.(ast);
                 prgOpts := celopts None |}
              Scenario.age20 None {| State := []; ActualCost := 0 |} None
              eq_refl eq_refl eq_refl) as (Hcarry & _ & Hdecided).
  destruct (Hdecided eq_refl) as (cr & Hcr & Hp).
  destruct (Hcarry cr Hcr) as (Hval & _ & _).
  exists cr. split_and!; [done..|].
  unfold Value. unfold IsPartial in Hp. by rewrite Hp, Hval.
Defined.

(** [PartialValue] after [EvaluateCaveatWithConfig]: for a Partial result
    the residual is the evaluated caveat with its AST pruned by the state
    the evaluator returned. *)
Theorem residual_of_an_evaluation (rt : CelRuntime)
    (caveat : CompiledCaveat) (ctx : gmap string CelValue)
    (config : option EvaluationConfig) (prg : Prg) (pvars : Activation)
    (v : option Val) (d : EvalDetails) (err : option string) (cr : CaveatResult) :
  rt.(env_Program) caveat.(celEnv) caveat.(ast) (celopts config) = Ok prg →
  rt.(cel_PartialVars) ctx = Ok pvars →
  rt.(prg_Eval) prg pvars = (v, d, err) →
  EvaluateCaveatWithConfig rt caveat ctx config = Ok cr →
  IsPartial cr = true →
  PartialValue rt cr =
    Ok {| celEnv := caveat.(celEnv);
          ast := rt.(interpreter_PruneAst) caveat.(ast) d.(State);
          name := caveat.(name) |}.
Proof.
  intros Hprg Hvars Hrun Hcr Hp.
  rewrite (Evaluate_answer rt caveat ctx config prg pvars Hprg Hvars v d err Hrun) in Hcr.
  destruct err as [msg|]; [|by simplify_eq].
  destruct (_ && _); [|done]. by simplify_eq.
Qed.

Lemma residual_of_an_evaluation_witness :
  ∃ cr,
    EvaluateCaveatWithConfig Scenario.rt Scenario.adultInUS Scenario.age20 None = Ok cr ∧
    IsPartial cr = true ∧
    PartialValue Scenario.rt cr =
      Ok {| celEnv := Scenario.adultInUS.(celEnv);
            ast := And 5 (Const 2 (VBool true))
                     (Call 7 Equals (Ident 6 "country") (Const 8 (VString "US")));
            name := "adult_in_us" |}.
Proof.
  exists Scenario.blockedOnCountry. split; [by vm_compute|]. split; [reflexivity|].
  rewrite (residual_of_an_evaluation Scenario.rt Scenario.adultInUS Scenario.age20 None
             {| prgEnv := Scenario.adultInUS.(celEnv);
                prgAst := Scenario.adultInUS.(ast);
                prgOpts := celopts None |}
             Scenario.age20
             (Some (ErrVal "no such attribute: id: 6, names: [country]"))
             Scenario.blockedOnCountry.(details)
             (Some "no such attribute: id: 6, names: [country]")
             Scenario.blockedOnCountry);
    by vm_compute.
Defined.

(** When the evaluator answers without an error only with booleans, [Value]
    returns on every result of [EvaluateCaveatWithConfig]: the evaluated
    boolean on a Decided result, [false] on a Partial one. *)
Theorem Value_returns_for_boolean_evaluators (rt : CelRuntime)
    (caveat : CompiledCaveat) (ctx : gmap string CelValue)
    (config : option EvaluationConfig) (cr : CaveatResult) :
  answersBooleans rt →
  EvaluateCaveatWithConfig rt caveat ctx config = Ok cr →
  ∃ b : bool,
    Value cr = Returns b ∧
    (IsPartial cr = true → b = false) ∧
    (IsPartial cr = false → cr.(val) = Some (Concrete (VBool b))).
Proof.
  intros Hbool. unfold EvaluateCaveatWithConfig.
  destruct (env_Program rt _ _ _) as [prg|]; [|done].
  destruct (cel_PartialVars rt ctx) as [pvars|]; [|done].
  destruct (prg_Eval rt prg pvars) as [[v d] [err|]] eqn:Hrun.
  - destruct (_ && _); [|done].
    destruct (Regexp.FindStringSubmatch _ _); intros; simplify_eq;
      exists false; by split_and!.
  - destruct (Hbool prg pvars v d Hrun) as [b ->].
    intros; simplify_eq. exists b. by split_and!.
Qed.

Lemma Value_returns_for_boolean_evaluators_witness :
  answersBooleans (Scenario.answering (Some (Concrete (VBool true))) None) ∧
  ∃ cr b,
    EvaluateCaveatWithConfig (Scenario.answering (Some (Concrete (VBool true))) None)
      Scenario.adultInUS Scenario.age20 None = Ok cr ∧
    Value cr = Returns b.
Proof.
  assert (Hbool : answersBooleans (Scenario.answering (Some (Concrete (VBool true))) None)).
  { intros prg pvars v d Hrun. simpl in Hrun. injection Hrun as <- _. by exists true. }
  split; [exact Hbool|].
  eexists. 
  assert (Hcr : EvaluateCaveatWithConfig
                  (Scenario.answering (Some (Concrete (VBool true))) None)
                  Scenario.adultInUS Scenario.age20 None
                = Ok {| val := Some (Concrete (VBool true));
                        details := {| State := []; ActualCost := 0 |};
                        parentCaveat := Scenario.adultInUS;
                        contextValues := Scenario.age20;
                        missingVarNames := [];
                        isPartial := false |}) by reflexivity.
  destruct (Value_returns_for_boolean_evaluators _ _ _ _ _ Hbool Hcr) as (b & Hb & _).
  exists b. split; [exact Hcr|exact Hb].
Defined.

(** [ExpressionString] gives the text of the evaluated caveat, whatever the
    context and the configuration of the evaluation and whether the result
    is Decided or Partial: two results of one caveat have the same
    expression string. *)
Theorem ExpressionString_is_the_evaluated_caveats (rt : CelRuntime)
    (exprString : CompiledCaveat → Result string) (caveat : CompiledCaveat)
    (ctx1 ctx2 : gmap string CelValue) (config1 config2 : option EvaluationConfig)
    (cr1 cr2 : CaveatResult) :
  EvaluateCaveatWithConfig rt caveat ctx1 config1 = Ok cr1 →
  EvaluateCaveatWithConfig rt caveat ctx2 config2 = Ok cr2 →
  ExpressionString exprString cr1 = exprString caveat ∧
  ExpressionString exprString cr2 = ExpressionString exprString cr1.
Proof.
  intros H1 H2. unfold ExpressionString.
  assert (Hparent : ∀ ctx config cr,
            EvaluateCaveatWithConfig rt caveat ctx config = Ok cr →
            cr.(parentCaveat) = caveat).
  { clear. intros ctx config cr. unfold EvaluateCaveatWithConfig.
    destruct (env_Program rt _ _ _) as [prg|]; [|done].
    destruct (cel_PartialVars rt ctx) as [pvars|]; [|done].
    destruct (prg_Eval rt prg pvars) as [[v d] [err|]].
    - destruct (_ && _); [|done].
      destruct (Regexp.FindStringSubmatch _ _); intros; by simplify_eq.
    - intros; by simplify_eq. }
  by rewrite (Hparent _ _ _ H1), (Hparent _ _ _ H2).
Qed.

Lemma ExpressionString_is_the_evaluated_caveats_witness :
  ∃ cr1 cr2,
    EvaluateCaveatWithConfig Scenario.rt Scenario.adultInUS Scenario.age20 None = Ok cr1 ∧
    EvaluateCaveatWithConfig Scenario.rt Scenario.adultInUS Scenario.age15
      (Some {| MaxCost := 9 |}) = Ok cr2 ∧
    IsPartial cr1 = true ∧ IsPartial cr2 = false ∧
    ExpressionString (fun c => Ok c.(name)) cr1 = Ok "adult_in_us" ∧
    ExpressionString (fun c => Ok c.(name)) cr2
    = ExpressionString (fun c => Ok c.(name)) cr1.
Proof.
  eexists. eexists. split; [by vm_compute|]. split; [by vm_compute|].
  split; [reflexivity|]. split; [reflexivity|].
  apply (ExpressionString_is_the_evaluated_caveats Scenario.rt (fun c => Ok c.(name))
           Scenario.adultInUS Scenario.age20 Scenario.age15 None
           (Some {| MaxCost := 9 |})); by vm_compute.
Defined.
